(** * Bugwatch: the sighting engine of [src/app/page.tsx]

    A shallow embedding of the four pieces of logic of the page component:
    the tag extractor [extractLocation], the relative-time formatter
    [prettyTime], the [distribution] aggregator and the submission handler
    [handleSubmit], followed by the properties of each.

    Conventions of the embedding.
    - A JavaScript string is its sequence of UTF-16 code units
      ([jsstring := list N]); [lit] turns an ASCII literal into one.
    - A JavaScript number that only ever holds an integer (a count, a
      millisecond timestamp) is a [Z]; quotients are exact rationals ([Q]),
      see [prettyTime] for why this is exact for IEEE doubles too.
    - React state is a record; a handler is a function from the state (and
      the outcomes of the platform calls it makes) to the next state. *)

From Stdlib Require Import ZArith NArith QArith Qround Lia Lqa Bool List.
From Stdlib Require Import Ascii String DecimalString DecimalPos DecimalZ.
From Stdlib Require Import Sorted Permutation.
Import ListNotations.

Local Open Scope Z_scope.

(** ** JavaScript strings *)

Module JsString.

Definition char := N.
Definition jsstring := list char.

Definition lit (s : string) : jsstring :=
  List.map N_of_ascii (list_ascii_of_string s).

Fixpoint eqb (a b : jsstring) : bool :=
  match a, b with
  | [], [] => true
  | x :: a', y :: b' => N.eqb x y && eqb a' b'
  | _, _ => false
  end.

(** ECMAScript [WhiteSpace] and [LineTerminator] code units: what
    [String.prototype.trim] strips. *)
Definition isWhiteSpace (c : char) : bool :=
  ((c =? 9) || (c =? 10) || (c =? 11) || (c =? 12) || (c =? 13)
   || (c =? 32) || (c =? 160) || (c =? 5760)
   || ((8192 <=? c) && (c <=? 8202))
   || (c =? 8232) || (c =? 8233) || (c =? 8239) || (c =? 8287)
   || (c =? 12288) || (c =? 65279))%N.

Fixpoint trimStart (s : jsstring) : jsstring :=
  match s with
  | c :: s' => if isWhiteSpace c then trimStart s' else s
  | [] => []
  end.

Definition trimEnd (s : jsstring) : jsstring :=
  rev (trimStart (rev s)).

(** [String.prototype.trim] *)
Definition trim (s : jsstring) : jsstring :=
  trimEnd (trimStart s).

(** JavaScript truthiness of a string: the empty string is falsy. *)
Definition truthy (s : jsstring) : bool :=
  match s with [] => false | _ :: _ => true end.

End JsString.
Import JsString.

(** ** The regular expression [/@<([^>]+)>/] *)

Module Regex.

Definition AT : char := 64%N.   (* @ *)
Definition LT : char := 60%N.   (* < *)
Definition GT : char := 62%N.   (* > *)

(** All the ways [[^>]+] matches a prefix of [s], as pairs (matched text,
    rest), in the order a backtracking matcher tries them: the quantifier
    is greedy, so the longest comes first. *)
Fixpoint class_plus (s : jsstring) : list (jsstring * jsstring) :=
  match s with
  | c :: s' =>
      if (c =? GT)%N then []
      else List.map (fun xr => (c :: fst xr, snd xr)) (class_plus s')
             ++ [([c], s')]
  | [] => []
  end.

(** The closing literal [>] after a candidate capture. *)
Definition close_gt (xr : jsstring * jsstring) : option jsstring :=
  match snd xr with
  | c :: _ => if (c =? GT)%N then Some (fst xr) else None
  | [] => None
  end.

Fixpoint first_some {A B} (f : A -> option B) (l : list A) : option B :=
  match l with
  | [] => None
  | a :: l' => match f a with Some b => Some b | None => first_some f l' end
  end.

(** The pattern anchored at the start of [s]; the result is group 1. *)
Definition match_here (s : jsstring) : option jsstring :=
  match s with
  | c1 :: c2 :: rest =>
      if ((c1 =? AT) && (c2 =? LT))%N
      then first_some close_gt (class_plus rest)
      else None
  | _ => None
  end.

(** [text.match(re)] for the non-global pattern: the leftmost start
    position at which the pattern matches; the result is group 1 of the
    match array ([null] is [None]). *)
Fixpoint String_match (text : jsstring) : option jsstring :=
  match match_here text with
  | Some g => Some g
  | None =>
      match text with
      | [] => None
      | _ :: text' => String_match text'
      end
  end.

End Regex.
Import Regex.

(** ** [extractLocation] *)

Definition Unspecified : jsstring := lit "Unspecified".

Definition extractLocation (text : jsstring) : jsstring :=
  match String_match text with
  | Some g => if truthy g then trim g else Unspecified
  | None => Unspecified
  end.

(** ** [prettyTime] *)

(** [Math.round]: the nearest integer, a tie going to the larger one. *)
Definition Math_round (x : Q) : Z := Qfloor (x + (1 # 2)).

(** Number-to-string conversion of a template literal, for an integer
    below 10^21: its decimal digits, with a minus sign when negative. *)
Definition Number_toString (n : Z) : jsstring :=
  lit (NilZero.string_of_int (Z.to_int n)).

(** [Date_now] is the value [Date.now()] returns during the call.

    Timestamps are integer milliseconds, at most 8.64e15 in magnitude, so
    [diff] is an integer below 2^54.  A quotient [diff / 60000] that is
    not exactly a half-integer is at least 1/60000 away from one, far more
    than the rounding error of the double division, and a half-integer
    quotient is a double; so rounding the double quotient and rounding the
    exact quotient give the same integer.  The same holds for [/ 60] and
    [/ 24].  The embedding therefore computes with exact rationals. *)
Definition prettyTime (Date_now : Z) (timestamp : Z) : jsstring :=
  let diff := Date_now - timestamp in
  let minutes := Z.max 1 (Math_round (inject_Z diff / 60000)) in
  if minutes <? 60 then Number_toString minutes ++ lit "m ago"
  else
    let hours := Math_round (inject_Z minutes / 60) in
    if hours <? 24 then Number_toString hours ++ lit "h ago"
    else
      let days := Math_round (inject_Z hours / 24) in
      Number_toString days ++ lit "d ago".

(** ** Data *)

Module Sighting.
Record t := mk {
  id : jsstring;
  description : jsstring;
  location : jsstring;
  imageUrl : jsstring;
  createdAt : Z
}.
End Sighting.

(** The objects [{ location, count }] of the distribution. *)
Module Item.
Record t := mk {
  location : jsstring;
  count : Z
}.
End Item.

(** A [Map<string, number>]: its entries in insertion order.  [set] on a
    key that is present overwrites the value and keeps the entry's place;
    on a new key it appends. *)
Module JsMap.

Definition t := list (jsstring * Z).

Definition empty : t := [].

Fixpoint get (k : jsstring) (m : t) : option Z :=
  match m with
  | [] => None
  | (k', v) :: m' => if JsString.eqb k' k then Some v else get k m'
  end.

Fixpoint set (k : jsstring) (v : Z) (m : t) : t :=
  match m with
  | [] => [(k, v)]
  | (k', v') :: m' =>
      if JsString.eqb k' k then (k', v) :: m' else (k', v') :: set k v m'
  end.

Definition entries (m : t) : list (jsstring * Z) := m.

End JsMap.

(** [x ?? d] *)
Definition nullish {A} (x : option A) (d : A) : A :=
  match x with Some a => a | None => d end.

(** ** [Array.prototype.sort] with a comparator

    The sort is stable, and for a consistent comparator its result is the
    one stable sorted arrangement; insertion from the right computes it.
    [a] goes before [b] when [cmp a b <= 0]. *)
Module JsArray.

Section Sort.
Context {A : Type} (cmp : A -> A -> Z).

Fixpoint insert (x : A) (l : list A) : list A :=
  match l with
  | [] => [x]
  | y :: l' => if cmp x y <=? 0 then x :: l else y :: insert x l'
  end.

Definition sort (l : list A) : list A := fold_right insert [] l.
End Sort.

End JsArray.

(** ** Platform calls of the submission handler *)

(** What a [FileReader] reports after [readAsDataURL]: a [load] event with
    [reader.result] a string, or something else, or an [error] event. *)
Inductive ReaderResult :=
| ResultString (s : jsstring)
| ResultOther.

Inductive ReaderEvent :=
| onload (result : ReaderResult)
| onerror.

(** A value thrown or rejected: an [Error] object with its message, or
    anything else. *)
Inductive Thrown :=
| Error (message : jsstring)
| NotAnError.

Inductive Settled (A : Type) :=
| resolve (a : A)
| reject (e : Thrown).
Arguments resolve {A} a.
Arguments reject {A} e.

Definition readFile (ev : ReaderEvent) : Settled jsstring :=
  match ev with
  | onload (ResultString s) => resolve s
  | onload ResultOther => reject (Error (lit "Could not read file"))
  | onerror => reject (Error (lit "Could not read file"))
  end.

(** ** The page component *)

Section HomePage.

(** The DOM [File] type, opaque to the component. *)
Variable File : Type.

(** [String.prototype.localeCompare] of the host: negative, zero or
    positive. *)
Variable localeCompare : jsstring -> jsstring -> Z.

(** The component's state hooks. *)
Record State := mkState {
  description : jsstring;
  file : option File;
  sightings : list Sighting.t;
  errors : option jsstring
}.

Definition setDescription (d : jsstring) (st : State) : State :=
  mkState d (file st) (sightings st) (errors st).
Definition setFile (f : option File) (st : State) : State :=
  mkState (description st) f (sightings st) (errors st).
Definition setSightings (upd : list Sighting.t -> list Sighting.t)
    (st : State) : State :=
  mkState (description st) (file st) (upd (sightings st)) (errors st).
Definition setErrors (e : option jsstring) (st : State) : State :=
  mkState (description st) (file st) (sightings st) e.

(** The outcomes of the platform calls made during one submission. *)
Record Platform := mkPlatform {
  readAsDataURL : File -> ReaderEvent;
  randomUUID : jsstring;
  Date_now : Z
}.

(** The comparator of [items.sort]:
    [b.count - a.count || a.location.localeCompare(b.location)]. *)
Definition compareItems (a b : Item.t) : Z :=
  let d := Item.count b - Item.count a in
  if d =? 0 then localeCompare (Item.location a) (Item.location b) else d.

Definition countLocations (l : list Sighting.t) : JsMap.t :=
  fold_left
    (fun counts s =>
       JsMap.set (Sighting.location s)
         (nullish (JsMap.get (Sighting.location s) counts) 0 + 1) counts)
    l JsMap.empty.

Definition distribution (l : list Sighting.t) : list Item.t :=
  let counts := countLocations l in
  let items :=
    List.map (fun e => Item.mk (fst e) (snd e)) (JsMap.entries counts) in
  JsArray.sort compareItems items.

Definition handleSubmit (p : Platform) (st : State) : State :=
  let st := setErrors None st in
  if negb (truthy (trim (description st))) then
    setErrors (Some (lit "Describe the bug and include @<location>.")) st
  else
    match file st with
    | None =>
        setErrors
          (Some (lit "Attach a photo so others can verify the sighting.")) st
    | Some f =>
        match readFile (readAsDataURL p f) with
        | resolve imageUrl =>
            let location := extractLocation (description st) in
            let newSighting :=
              Sighting.mk (randomUUID p) (description st) location imageUrl
                (Date_now p) in
            let st := setSightings (fun prev => newSighting :: prev) st in
            let st := setDescription [] st in
            setFile None st
        | reject error =>
            setErrors
              (Some match error with
                    | Error message => message
                    | NotAnError => lit "Could not upload file"
                    end) st
        end
    end.

End HomePage.

Arguments description {File} _.
Arguments file {File} _.
Arguments sightings {File} _.
Arguments errors {File} _.
Arguments mkState {File} _ _ _ _.
Arguments handleSubmit {File} _ _.
Arguments readAsDataURL {File} _ _.
Arguments randomUUID {File} _.
Arguments Date_now {File} _.
Arguments mkPlatform {File} _ _ _.

(** * Vocabulary of the properties *)

(** [no_gt X]: no code unit of [X] is [>]. *)
Definition no_gt (X : jsstring) : Prop := Forall (fun c => c <> GT) X.

(** [t] contains the tag [@<X>] right after the prefix [pre]; [X] may be
    empty. *)
Definition tag_occurrence (t pre X post : jsstring) : Prop :=
  t = pre ++ AT :: LT :: X ++ GT :: post /\ no_gt X.

(** No tag of [t] starts before the end of [pre]. *)
Definition first_tag (t pre : jsstring) : Prop :=
  forall pre' X' post',
    tag_occurrence t pre' X' post' -> (List.length pre <= List.length pre')%nat.

(** No tag of [t] with a non-empty capture starts before the end of [pre]. *)
Definition first_nonempty_tag (t pre : jsstring) : Prop :=
  forall pre' X' post',
    tag_occurrence t pre' X' post' -> X' <> [] ->
    (List.length pre <= List.length pre')%nat.

(** A decision procedure for [first_nonempty_tag]: the anchored pattern
    fails at each of the first [n] positions of [t]. *)
Fixpoint no_match_before (n : nat) (t : jsstring) : bool :=
  match n with
  | O => true
  | S n' =>
      match match_here t with
      | Some _ => false
      | None => match t with [] => true | _ :: t' => no_match_before n' t' end
      end
  end.

Definition no_tag (t : jsstring) : Prop :=
  forall pre X post, ~ tag_occurrence t pre X post.

(** [t] has a tag, and each of its tags is the empty capture [@<>]. *)
Definition only_empty_tags (t : jsstring) : Prop :=
  (exists pre post, tag_occurrence t pre [] post) /\
  (forall pre X post, tag_occurrence t pre X post -> X = []).

Definition all_whitespace (s : jsstring) : Prop :=
  Forall (fun c => isWhiteSpace c = true) s.

(** [s] neither starts nor ends with white space. *)
Definition trimmed (s : jsstring) : Prop :=
  (forall c s', s = c :: s' -> isWhiteSpace c = false) /\
  (forall c s', s = s' ++ [c] -> isWhiteSpace c = false).

(** ** The relative-time rule as the specification words it

    "Minutes = max(1, round(elapsed-ms / 60000)); if minutes < 60 render
    minutes; else hours = round(minutes / 60), if hours < 24 render hours;
    else render days = round(hours / 24)", with [round] the nearest
    integer and a half rounded up. *)

(** The nearest integer to [x]: its floor when the fractional part is
    below one half, the next integer otherwise. *)
Definition round_half_up (x : Q) : Z :=
  let f := Qfloor x in
  if Qle_bool (1 # 2) (x - inject_Z f) then f + 1 else f.

Inductive TimeUnit := Minutes | Hours | Days.

Definition suffix (u : TimeUnit) : jsstring :=
  match u with
  | Minutes => lit "m ago"
  | Hours => lit "h ago"
  | Days => lit "d ago"
  end.

Definition spec_relative (elapsed_ms : Z) : Z * TimeUnit :=
  let minutes := Z.max 1 (round_half_up (inject_Z elapsed_ms / 60000)) in
  if minutes <? 60 then (minutes, Minutes)
  else
    let hours := round_half_up (inject_Z minutes / 60) in
    if hours <? 24 then (hours, Hours)
    else (round_half_up (inject_Z hours / 24), Days).

Definition render (label : Z * TimeUnit) : jsstring :=
  Number_toString (fst label) ++ suffix (snd label).

(** ** Vocabulary of the distribution *)

Definition sum_counts (items : list Item.t) : Z :=
  fold_right Z.add 0 (List.map Item.count items).

Definition jsstring_eq_dec : forall a b : jsstring, {a = b} + {a <> b} :=
  list_eq_dec N.eq_dec.

(** The location values of a collection, each listed once. *)
Definition distinct_locations (l : list Sighting.t) : list jsstring :=
  nodup jsstring_eq_dec (List.map Sighting.location l).

(** One more sighting at location [k]: the update [forEach] applies. *)
Definition bump (k : jsstring) (m : JsMap.t) : JsMap.t :=
  JsMap.set k (nullish (JsMap.get k m) 0 + 1) m.

(** The keys of a map in insertion order, and the sum of its values. *)
Definition keys (m : JsMap.t) : list jsstring := List.map fst m.
Definition total (m : JsMap.t) : Z := fold_right Z.add 0 (List.map snd m).

(** The loop of [forEach], started from any map. *)
Definition count_from (m : JsMap.t) (l : list Sighting.t) : JsMap.t :=
  fold_left (fun counts s => bump (Sighting.location s) counts) l m.

(** What ECMAScript asks of a comparator for the sort order to be defined:
    the sign of [cmp b a] is the opposite of that of [cmp a b], and "not
    after" is transitive. *)
Record consistent {A} (cmp : A -> A -> Z) : Prop := {
  cmp_antisym : forall a b, Z.sgn (cmp b a) = - Z.sgn (cmp a b);
  cmp_trans : forall a b c, cmp a b <= 0 -> cmp b c <= 0 -> cmp a c <= 0
}.

(** The order of the ranking: more sightings first, and among equal
    counts the location that [localeCompare] does not put after. *)
Definition ranked_before (localeCompare : jsstring -> jsstring -> Z)
    (a b : Item.t) : Prop :=
  Item.count a > Item.count b
  \/ (Item.count a = Item.count b
      /\ localeCompare (Item.location a) (Item.location b) <= 0).

(** Comparison of strings by code units, the order of [<] on JavaScript
    strings: an instance of a collation. *)
Fixpoint lexCompare (a b : jsstring) : Z :=
  match a, b with
  | [], [] => 0
  | [], _ :: _ => -1
  | _ :: _, [] => 1
  | x :: a', y :: b' =>
      match N.compare x y with
      | Lt => -1
      | Gt => 1
      | Eq => lexCompare a' b'
      end
  end.

(** ** Vocabulary of the submission handler *)

(** The error taxonomy of the specification.  The handler reports a
    failure by storing a message in [errors]; [message] gives the message
    of each kind as the source has it. *)
Inductive SubmissionError := MissingDescription | MissingImage | ImageReadError.

Definition message (e : SubmissionError) : jsstring :=
  match e with
  | MissingDescription => lit "Describe the bug and include @<location>."
  | MissingImage => lit "Attach a photo so others can verify the sighting."
  | ImageReadError => lit "Could not read file"
  end.

(** [st'], the state after a submission, reports the failure [e]. *)
Definition fails_with {File} (st' : State File) (e : SubmissionError) : Prop :=
  errors st' = Some (message e).

(** The submission failed, or succeeded. *)
Definition failed {File} (st' : State File) : Prop := errors st' <> None.
Definition succeeded {File} (st' : State File) : Prop := errors st' = None.

(** The read of [f] does not produce a displayable image. *)
Definition unreadable {File} (p : Platform File) (f : File) : Prop :=
  forall url, readFile (readAsDataURL p f) <> resolve url.

(** A platform for the examples: file 0 is a readable image, file 1 is
    read into something that is not a string, any other file fails. *)
Definition demoPlatform : Platform nat :=
  mkPlatform
    (fun f => match f with
              | O => onload (ResultString (lit "data:image/png;base64,iVBORw0KGgo="))
              | S O => onload ResultOther
              | _ => onerror
              end)
    (lit "3b241101-e2bb-4255-8caf-4136c566a962")
    1700000000000.

Definition demoSighting (loc : string) : Sighting.t :=
  Sighting.mk (lit "demo") (lit "") (lit loc) (lit "https://example.org/a.png") 0.

(** ** More of the page component

    The rest of [HomePage] that is plain data and integer logic: the
    initial collection, the two derived values next to [distribution], and
    the form's change handlers, with the page as a transition system over
    the user's events.  (The width of a progress bar is a percentage
    computed in floating point and is not modelled.) *)

(** [demoSightings]: the collection the page starts with.  [Date.now()] is
    called once per entry while the module loads; [t1], [t2], [t3] are the
    three values. *)
Definition demoSightings (t1 t2 t3 : Z) : list Sighting.t :=
  [ Sighting.mk (lit "demo-1")
      (lit "Tiny beetles near the vending machines. @<Science Atrium>")
      (lit "Science Atrium")
      (lit "https://images.unsplash.com/photo-1504518633247-6bf4c7c6f62c?auto=format&fit=crop&w=400&q=80")
      (t1 - 1000 * 60 * 45);
    Sighting.mk (lit "demo-2")
      (lit "Fruit flies around the compost bin. @<Cafe Patio>")
      (lit "Cafe Patio")
      (lit "https://images.unsplash.com/photo-1586953208448-b95ef33822f8?auto=format&fit=crop&w=400&q=80")
      (t2 - 1000 * 60 * 90);
    Sighting.mk (lit "demo-3")
      (lit "Mosquito swarm close to the south pond @<Lakeside Lawn>")
      (lit "Lakeside Lawn")
      (lit "https://images.unsplash.com/photo-1438109491414-7198515b166b?auto=format&fit=crop&w=400&q=80")
      (t3 - 1000 * 60 * 150) ].

(** The state of the four hooks at the first render. *)
Definition initialState {File} (t1 t2 t3 : Z) : State File :=
  mkState [] None (demoSightings t1 t2 t3) None.

(** [totalSightings = sightings.length] *)
Definition totalSightings {File} (st : State File) : Z :=
  Z.of_nat (List.length (sightings st)).

(** [topCount = distribution[0]?.count ?? 1] *)
Definition topCount (localeCompare : jsstring -> jsstring -> Z)
    (l : list Sighting.t) : Z :=
  nullish (option_map Item.count (nth_error (distribution localeCompare l) 0)) 1.

(** The [onChange] handler of the text area:
    [setDescription(event.target.value)]. *)
Definition onDescriptionChange {File} (value : jsstring) (st : State File)
    : State File :=
  setDescription File value st.

(** The [onChange] handler of the file input:
    [setFile(event.target.files?.[0] ?? null)]; [files] is the input's
    [FileList], or [None] for [null]. *)
Definition onFileChange {File} (files : option (list File)) (st : State File)
    : State File :=
  setFile File
    (nullish (option_map (fun fl => nth_error fl 0) files) None) st.

(** What the user can do, with what the platform answers to a submit. *)
Inductive Event (File : Type) :=
| DescriptionChange (value : jsstring)
| FileChange (files : option (list File))
| Submit (p : Platform File).
Arguments DescriptionChange {File} value.
Arguments FileChange {File} files.
Arguments Submit {File} p.

Definition step {File} (st : State File) (ev : Event File) : State File :=
  match ev with
  | DescriptionChange value => onDescriptionChange value st
  | FileChange files => onFileChange files st
  | Submit p => handleSubmit p st
  end.

(** The events of a session in which every read settles before the next
    event: each submit is handled to its end.  Sessions in which other
    events come while a read is pending are those of [session] below. *)
Definition run {File} (st : State File) (evs : list (Event File)) : State File :=
  fold_left step evs st.

(** ** The submission handler around its [await]

    [handleSubmit] is suspended at [await readFile(file)].  Up to there it
    runs at the click, with the [description] and [file] of the render the
    handler belongs to; the rest runs when the read settles, on the state
    of that moment ([setSightings] takes the collection of that moment,
    the other setters overwrite), with the same [description] and [file]
    still in its closure. *)

(** What a suspended call holds on to. *)
Record Pending (File : Type) := mkPending {
  pendingDescription : jsstring;
  pendingFile : File
}.
Arguments mkPending {File} _ _.
Arguments pendingDescription {File} _.
Arguments pendingFile {File} _.

(** [handleSubmit] from the click to the [await], or to a [return]. *)
Definition submitClick {File} (st : State File)
    : State File * option (Pending File) :=
  let st := setErrors File None st in
  if negb (truthy (trim (description st))) then
    (setErrors File (Some (lit "Describe the bug and include @<location>.")) st,
     None)
  else
    match file st with
    | None =>
        (setErrors File
           (Some (lit "Attach a photo so others can verify the sighting.")) st,
         None)
    | Some f => (st, Some (mkPending (description st) f))
    end.

(** [handleSubmit] from the [await] on, when the read has settled; [p]
    holds the outcome of the read and what [crypto.randomUUID()] and
    [Date.now()] return then. *)
Definition submitSettle {File} (p : Platform File) (pd : Pending File)
    (st : State File) : State File :=
  match readFile (readAsDataURL p (pendingFile pd)) with
  | resolve imageUrl =>
      let location := extractLocation (pendingDescription pd) in
      let newSighting :=
        Sighting.mk (randomUUID p) (pendingDescription pd) location imageUrl
          (Date_now p) in
      let st := setSightings File (fun prev => newSighting :: prev) st in
      let st := setDescription File [] st in
      setFile File None st
  | reject error =>
      setErrors File
        (Some match error with
              | Error message => message
              | NotAnError => lit "Could not upload file"
              end) st
  end.

(** The page with its suspended submissions, oldest first. *)
Record Page (File : Type) := mkPage {
  ui : State File;
  reads : list (Pending File)
}.
Arguments mkPage {File} _ _.
Arguments ui {File} _.
Arguments reads {File} _.

(** What happens to the page: the user types, selects a file or clicks
    the submit button, or the [n]-th pending read settles. *)
Inductive Action (File : Type) :=
| Typed (value : jsstring)
| Selected (files : option (list File))
| Clicked
| ReadSettles (n : nat) (p : Platform File).
Arguments Typed {File} value.
Arguments Selected {File} files.
Arguments Clicked {File}.
Arguments ReadSettles {File} n p.

Definition act {File} (pg : Page File) (a : Action File) : Page File :=
  match a with
  | Typed value => mkPage (onDescriptionChange value (ui pg)) (reads pg)
  | Selected files => mkPage (onFileChange files (ui pg)) (reads pg)
  | Clicked =>
      match submitClick (ui pg) with
      | (st, Some pd) => mkPage st (reads pg ++ [pd])
      | (st, None) => mkPage st (reads pg)
      end
  | ReadSettles n p =>
      match nth_error (reads pg) n with
      | Some pd =>
          mkPage (submitSettle p pd (ui pg))
            (firstn n (reads pg) ++ skipn (S n) (reads pg))
      | None => pg
      end
  end.

Definition session {File} (pg : Page File) (acts : list (Action File))
    : Page File :=
  fold_left act acts pg.

(** The page at its first render: nothing is pending. *)
Definition initialPage {File} (t1 t2 t3 : Z) : Page File :=
  mkPage (initialState t1 t2 t3) [].

(** The read of every file succeeds. *)
Definition reads_succeed {File} (p : Platform File) : Prop :=
  forall f, exists url, readFile (readAsDataURL p f) = resolve url.

(** An action that is not a click and not a read that can fail. *)
Definition quiet {File} (a : Action File) : Prop :=
  match a with
  | Typed _ | Selected _ => True
  | Clicked => False
  | ReadSettles _ p => reads_succeed p
  end.

Definition isReadSettles {File} (a : Action File) : bool :=
  match a with ReadSettles _ _ => true | _ => false end.

(** A platform for the examples on which every read succeeds. *)
Definition readyPlatform : Platform nat :=
  mkPlatform
    (fun _ => onload (ResultString (lit "data:image/png;base64,iVBORw0KGgo=")))
    (lit "5f0c54a1-3f4e-4a0b-9d6c-0a1d7f3b2c11")
    1700000001000.

(** ** A collation of the kind hosts have

    [localeCompare] is the host's.  For ASCII letters the collations of
    browsers compare without regard to case first and put a lower-case
    letter before its upper-case form, so that ["a".localeCompare("B")] is
    negative; [caseFirstCompare] is such a comparison. *)
Definition toLower (c : char) : char :=
  if ((65 <=? c) && (c <=? 90))%N then (c + 32)%N else c.

Definition foldCase (s : jsstring) : jsstring := List.map toLower s.

Definition caseFirstCompare (a b : jsstring) : Z :=
  let c := lexCompare (foldCase a) (foldCase b) in
  if c =? 0 then lexCompare b a else c.

(** ** Vocabulary of the further properties *)

(** No code unit of [pre] is [@]. *)
Definition no_at (pre : jsstring) : Prop := Forall (fun c => c <> AT) pre.

(** The label is ordered by unit first, then by number. *)
Definition unit_rank (u : TimeUnit) : Z :=
  match u with Minutes => 0 | Hours => 1 | Days => 2 end.

Definition label_le (a b : Z * TimeUnit) : Prop :=
  unit_rank (snd a) < unit_rank (snd b)
  \/ (snd a = snd b /\ fst a <= fst b).

(** The number of sightings of [l] at location [loc]. *)
Definition occurrences (loc : jsstring) (l : list Sighting.t) : Z :=
  Z.of_nat (count_occ jsstring_eq_dec (List.map Sighting.location l) loc).

(** The count listed for [loc] in a distribution, 0 when it is not
    listed. *)
Definition tally (loc : jsstring) (items : list Item.t) : Z :=
  nullish
    (option_map Item.count
       (find (fun it => JsString.eqb (Item.location it) loc) items)) 0.

(** The stored location is the one extracted from the stored description,
    and the description is not blank. *)
Definition well_tagged (s : Sighting.t) : Prop :=
  Sighting.location s = extractLocation (Sighting.description s)
  /\ trim (Sighting.description s) <> [].

(** * Properties *)

(** ** Worked examples *)

Example extractLocation_demo1 :
  extractLocation (lit "Tiny beetles near the vending machines. @<Science Atrium>")
  = lit "Science Atrium".
Proof. reflexivity. Qed.

Example extractLocation_padded :
  extractLocation (lit "ants @<  East Quad > and @<West>") = lit "East Quad".
Proof. reflexivity. Qed.

Example extractLocation_none :
  extractLocation (lit "no tag here <x> @ <y>") = Unspecified.
Proof. reflexivity. Qed.

(** ** The tag extractor *)

Section TagExtractor.

Lemma no_gt_app x y : no_gt (x ++ y) <-> no_gt x /\ no_gt y.
Proof. unfold no_gt. apply Forall_app. Qed.

(** A text has at most one way of being "capture, then [>]". *)
Lemma capture_unique x y r r' :
  no_gt x -> no_gt y -> x ++ GT :: r = y ++ GT :: r' -> x = y /\ r = r'.
Proof.
  revert y. induction x as [|c x IH]; intros [|d y] Hx Hy E; simpl in E.
  - injection E as ->. split; reflexivity.
  - injection E as E _. inversion Hy; subst. congruence.
  - injection E as E _. inversion Hx; subst. congruence.
  - injection E as -> E. inversion Hx; inversion Hy; subst.
    destruct (IH y) as [-> ->]; auto.
Qed.

Lemma class_plus_sound s x r :
  In (x, r) (class_plus s) -> s = x ++ r /\ x <> [] /\ no_gt x.
Proof.
  revert x r. induction s as [|c s IH]; simpl; intros x r H; [contradiction|].
  destruct (N.eqb_spec c GT) as [|Hc]; [contradiction|].
  apply in_app_or in H. destruct H as [H|[H|[]]].
  - apply in_map_iff in H. destruct H as [[x' r'] [E H]].
    simpl in E. injection E as <- <-.
    destruct (IH _ _ H) as (-> & _ & Hx).
    repeat split; [discriminate | constructor; assumption].
  - injection H as <- <-.
    repeat split; [discriminate | constructor; [assumption | constructor]].
Qed.

Lemma class_plus_complete x r :
  x <> [] -> no_gt x -> In (x, r) (class_plus (x ++ r)).
Proof.
  induction x as [|c x IH]; intros Hne Hx; [congruence|].
  inversion Hx as [|? ? Hc Hx']; subst. simpl.
  destruct (N.eqb_spec c GT); [contradiction|].
  apply in_or_app. destruct x as [|d x].
  - right. left. reflexivity.
  - left. apply in_map_iff. exists (d :: x, r). split; [reflexivity|].
    apply IH; [discriminate | assumption].
Qed.

Lemma first_some_Some {A B} (f : A -> option B) l b :
  first_some f l = Some b -> exists a, In a l /\ f a = Some b.
Proof.
  induction l as [|a l IH]; simpl; [discriminate|].
  destruct (f a) eqn:E.
  - intros [= ->]. exists a. auto.
  - intros H. destruct (IH H) as (a' & ? & ?). exists a'. auto.
Qed.

Lemma first_some_None {A B} (f : A -> option B) l a :
  first_some f l = None -> In a l -> f a = None.
Proof.
  induction l as [|a' l IH]; simpl; [contradiction|].
  destruct (f a') eqn:E; [discriminate|].
  intros H [<-|Hin]; auto.
Qed.

Lemma close_gt_Some xr g :
  close_gt xr = Some g <-> exists r, xr = (g, GT :: r).
Proof.
  destruct xr as [x [|c r]]; unfold close_gt; simpl.
  - split; [discriminate | intros [r [= ]]].
  - destruct (N.eqb_spec c GT) as [->|Hc].
    + split; [intros [= ->]; eauto | intros [r' [= -> ->]]; reflexivity].
    + split; [discriminate | intros [r' [= -> ? ?]]; congruence].
Qed.

(** The anchored pattern matches exactly the texts [@<x>...] with [x]
    non-empty and free of [>], and captures [x]. *)
Lemma match_here_spec s x :
  match_here s = Some x <->
  exists r, s = AT :: LT :: x ++ GT :: r /\ x <> [] /\ no_gt x.
Proof.
  split.
  - destruct s as [|c1 [|c2 rest]]; simpl; try discriminate.
    destruct (N.eqb_spec c1 AT) as [->|]; [|discriminate].
    destruct (N.eqb_spec c2 LT) as [->|]; [|discriminate]. simpl.
    intros H. apply first_some_Some in H. destruct H as ([y r] & Hin & Hc).
    apply close_gt_Some in Hc. destruct Hc as [r' [= -> ->]].
    apply class_plus_sound in Hin. destruct Hin as (-> & ? & ?).
    exists r'. auto.
  - intros (r & -> & Hne & Hx). simpl.
    destruct (first_some close_gt (class_plus (x ++ GT :: r))) as [y|] eqn:E.
    + apply first_some_Some in E. destruct E as ([y' r'] & Hin & Hc).
      apply close_gt_Some in Hc. destruct Hc as [r'' [= -> ->]].
      apply class_plus_sound in Hin. destruct Hin as (E & _ & Hy).
      destruct (capture_unique _ _ _ _ Hx Hy E) as [-> _]. reflexivity.
    + pose proof (class_plus_complete x (GT :: r) Hne Hx) as Hin.
      apply (first_some_None _ _ _ E) in Hin.
      unfold close_gt in Hin. simpl in Hin. discriminate.
Qed.

Lemma match_here_None s :
  match_here s = None <->
  forall x r, s = AT :: LT :: x ++ GT :: r -> no_gt x -> x = [].
Proof.
  split.
  - intros H x r E Hx. destruct x as [|c x]; [reflexivity|].
    assert (match_here s = Some (c :: x)) as H'.
    { apply match_here_spec. exists r. repeat split; [assumption|discriminate|assumption]. }
    congruence.
  - intros H. destruct (match_here s) as [x|] eqn:E; [|reflexivity].
    apply match_here_spec in E. destruct E as (r & E & Hne & Hx).
    elim Hne. eapply H; eassumption.
Qed.

(** The search returns the capture of the leftmost position where the
    anchored pattern matches. *)
Lemma String_match_leftmost pre s x :
  match_here s = Some x ->
  (forall pre' s', pre ++ s = pre' ++ s' ->
                   (List.length pre' < List.length pre)%nat -> match_here s' = None) ->
  String_match (pre ++ s) = Some x.
Proof.
  induction pre as [|c pre IH]; intros Hm Hfirst.
  - simpl. destruct s; simpl in *; rewrite Hm; reflexivity.
  - change (String_match ((c :: pre) ++ s))
      with (match match_here ((c :: pre) ++ s) with
            | Some g => Some g
            | None => String_match (pre ++ s)
            end).
    rewrite (Hfirst [] ((c :: pre) ++ s)) by (simpl; auto; lia).
    apply IH; [assumption|].
    intros pre' s' E Hlt. apply (Hfirst (c :: pre') s').
    + simpl. rewrite E. reflexivity.
    + simpl. lia.
Qed.

Lemma String_match_nowhere t :
  (forall pre s, t = pre ++ s -> match_here s = None) ->
  String_match t = None.
Proof.
  induction t as [|c t IH]; intros H.
  - simpl. reflexivity.
  - change (String_match (c :: t))
      with (match match_here (c :: t) with
            | Some g => Some g
            | None => String_match t
            end).
    rewrite (H [] (c :: t) eq_refl). apply IH.
    intros pre s ->. apply (H (c :: pre) s). reflexivity.
Qed.

Lemma String_match_unfold t :
  String_match t =
  match match_here t with
  | Some g => Some g
  | None => match t with [] => None | _ :: t' => String_match t' end
  end.
Proof. destruct t; reflexivity. Qed.

Lemma String_match_None_suffix t :
  String_match t = None ->
  forall pre s, t = pre ++ s -> match_here s = None.
Proof.
  induction t as [|c t IH]; intros H pre s E; rewrite String_match_unfold in H.
  - destruct pre; [|discriminate]. simpl in E. subst s.
    destruct (match_here []); [discriminate | reflexivity].
  - destruct (match_here (c :: t)) eqn:Hm; [discriminate|].
    destruct pre as [|c' pre]; simpl in E.
    + subst s. assumption.
    + injection E as _ E. apply (IH H pre). assumption.
Qed.

(** A successful search captured something. *)
Lemma String_match_nonempty t g : String_match t = Some g -> g <> [].
Proof.
  assert (forall s, match_here s = Some g -> g <> []) as Hhere.
  { intros s Hm. apply match_here_spec in Hm.
    destruct Hm as (_ & _ & ? & _). assumption. }
  induction t as [|c t IH]; rewrite String_match_unfold.
  - destruct (match_here []) as [g'|] eqn:Hm; [|discriminate].
    intros [= ->]. eapply Hhere. eassumption.
  - destruct (match_here (c :: t)) as [g'|] eqn:Hm; [|assumption].
    intros [= ->]. eapply Hhere. eassumption.
Qed.

End TagExtractor.

(** ** [trim] removes exactly the white space at both ends *)

Section Trim.

Lemma trimStart_split s :
  exists l, s = l ++ trimStart s /\ all_whitespace l.
Proof.
  induction s as [|c s [l [E Hl]]]; simpl.
  - exists []. split; [reflexivity | constructor].
  - destruct (isWhiteSpace c) eqn:Hc.
    + exists (c :: l). split; [simpl; congruence | constructor; assumption].
    + exists []. split; [reflexivity | constructor].
Qed.

Lemma trimStart_head s c s' :
  trimStart s = c :: s' -> isWhiteSpace c = false.
Proof.
  induction s as [|d s IH]; simpl; [discriminate|].
  destruct (isWhiteSpace d) eqn:Hd; [assumption|].
  intros [= -> _]. assumption.
Qed.

(** Dropping white space at the front leaves the last code unit of a
    non-empty result in place. *)
Lemma trimStart_last s c s' :
  trimStart s = s' ++ [c] -> exists s0, s = s0 ++ [c].
Proof.
  intros E. destruct (trimStart_split s) as [l [Es _]].
  exists (l ++ s'). rewrite <- app_assoc, <- E. assumption.
Qed.

Lemma trim_split X :
  exists l r, X = l ++ trim X ++ r /\ all_whitespace l /\ all_whitespace r.
Proof.
  destruct (trimStart_split X) as [l [El Hl]].
  destruct (trimStart_split (rev (trimStart X))) as [r [Er Hr]].
  exists l, (rev r). repeat split.
  - unfold trim, trimEnd. rewrite <- rev_app_distr, <- Er, rev_involutive.
    assumption.
  - assumption.
  - unfold all_whitespace in *. apply Forall_rev. assumption.
Qed.

Lemma trim_trimmed X : trimmed (trim X).
Proof.
  unfold trim, trimEnd. split; intros c s' E.
  - (* the head of the result is the head of [trimStart X] *)
    apply (f_equal (@rev _)) in E. rewrite rev_involutive in E.
    simpl in E. apply trimStart_last in E. destruct E as [s0 E].
    apply (f_equal (@rev _)) in E.
    rewrite rev_involutive, rev_app_distr in E. simpl in E.
    eapply trimStart_head. eassumption.
  - apply (f_equal (@rev _)) in E.
    rewrite rev_involutive, rev_app_distr in E. simpl in E.
    eapply trimStart_head. eassumption.
Qed.

End Trim.

(** ** Claims on [extractLocation] *)

Section ExtractLocation.

Lemma tag_is_match t pre X post :
  tag_occurrence t pre X post -> X <> [] ->
  match_here (AT :: LT :: X ++ GT :: post) = Some X.
Proof.
  intros [_ Hx] Hne. apply match_here_spec. exists post. auto.
Qed.

Lemma match_is_tag pre s x :
  match_here s = Some x ->
  exists post, tag_occurrence (pre ++ s) pre x post /\ x <> [].
Proof.
  intros H. apply match_here_spec in H. destruct H as (r & -> & Hne & Hx).
  exists r. split; [split; [reflexivity | assumption] | assumption].
Qed.

Lemma extractLocation_of_match t g :
  String_match t = Some g -> g <> [] -> extractLocation t = trim g.
Proof.
  intros H Hne. unfold extractLocation. rewrite H.
  destruct g; [congruence | reflexivity].
Qed.

Lemma extractLocation_of_no_match t :
  String_match t = None -> extractLocation t = Unspecified.
Proof. intros H. unfold extractLocation. rewrite H. reflexivity. Qed.

Lemma no_match_before_prefix n pre s :
  no_match_before n (pre ++ s) = true ->
  (List.length pre < n)%nat -> match_here s = None.
Proof.
  revert n. induction pre as [|c pre IH]; intros [|n] H Hlt;
    try (simpl in Hlt; lia).
  - simpl in H. destruct (match_here s); [discriminate | reflexivity].
  - change (no_match_before (S n) ((c :: pre) ++ s))
      with (match match_here (c :: pre ++ s) with
            | Some _ => false
            | None => no_match_before n (pre ++ s)
            end) in H.
    destruct (match_here (c :: pre ++ s)); [discriminate|].
    apply (IH n); [assumption | simpl in Hlt; lia].
Qed.

Lemma no_match_before_sound t pre :
  no_match_before (List.length pre) t = true -> first_nonempty_tag t pre.
Proof.
  intros H pre' X' post' Hocc Hne.
  destruct (Nat.le_gt_cases (List.length pre) (List.length pre'))
    as [|Hlt]; [assumption|].
  pose proof (tag_is_match _ _ _ _ Hocc Hne) as Hm.
  destruct Hocc as [-> _].
  rewrite (no_match_before_prefix _ _ _ H Hlt) in Hm. discriminate.
Qed.

(** C1, as amended: when [t] contains [@<X>] with [X] non-empty and free
    of [>], and no tag with a non-empty capture starts further left,
    [extractLocation t] is [X] without its leading and trailing white
    space: [trim X], which is [X] minus a run of white space at each end
    and itself neither starts nor ends with white space. *)
Theorem extractLocation_first_tag t pre X post :
  tag_occurrence t pre X post ->
  X <> [] ->
  first_nonempty_tag t pre ->
  extractLocation t = trim X
  /\ (exists l r, X = l ++ extractLocation t ++ r
                  /\ all_whitespace l /\ all_whitespace r)
  /\ trimmed (extractLocation t).
Proof.
  intros Hocc Hne Hfirst.
  assert (extractLocation t = trim X) as ->.
  { apply extractLocation_of_match; [|assumption].
    pose proof (tag_is_match _ _ _ _ Hocc Hne) as Hm.
    destruct Hocc as [-> Hx].
    apply String_match_leftmost; [assumption|].
    intros pre' s' E Hlt.
    destruct (match_here s') as [x'|] eqn:Hm'; [|reflexivity].
    destruct (match_is_tag pre' _ _ Hm') as (post' & Hocc' & Hne').
    rewrite <- E in Hocc'.
    specialize (Hfirst _ _ _ Hocc' Hne'). lia. }
  split; [reflexivity|]. split; [apply trim_split | apply trim_trimmed].
Qed.

Lemma extractLocation_first_tag_witness :
  extractLocation (lit "ants @<> by @< East Quad > and @<West>")
  = trim (lit " East Quad ")
  /\ (exists l r,
         lit " East Quad "
         = l ++ extractLocation (lit "ants @<> by @< East Quad > and @<West>")
             ++ r
         /\ all_whitespace l /\ all_whitespace r)
  /\ trimmed (extractLocation (lit "ants @<> by @< East Quad > and @<West>")).
Proof.
  apply (extractLocation_first_tag
           (lit "ants @<> by @< East Quad > and @<West>")
           (lit "ants @<> by ") (lit " East Quad ") (lit " and @<West>")).
  - split; [reflexivity|].
    unfold no_gt. repeat constructor; discriminate.
  - discriminate.
  - apply no_match_before_sound. reflexivity.
Defined.

(** C1, as stated, fails on the empty capture: [@<>] is a tag whose [X]
    is the empty sequence, and the text is answered with the sentinel,
    not with the (empty) trimmed [X]. *)
Lemma extractLocation_empty_tag_counterexample :
  ~ (forall t pre X post,
        tag_occurrence t pre X post -> first_tag t pre ->
        extractLocation t = trim X).
Proof.
  intros H.
  specialize (H (lit "@<>") [] [] []).
  assert (extractLocation (lit "@<>") = trim []) as E.
  { apply H.
    - split; [reflexivity | constructor].
    - intros pre' X' post' _. simpl. lia. }
  vm_compute in E. discriminate E.
Qed.

(** Requiring the text between [@<] and [>] to be free of [>] loses no
    tag: a text with [@<], any characters and [>] has a tag at that
    place, closed by the first [>]. *)
Lemma tag_of_bracketed pre Y post :
  exists X post',
    tag_occurrence (pre ++ AT :: LT :: Y ++ GT :: post) pre X post'.
Proof.
  assert (exists X post', Y ++ GT :: post = X ++ GT :: post' /\ no_gt X)
    as (X & post' & E & Hx).
  { induction Y as [|c Y (X & post' & E & Hx)].
    - exists [], post. split; [reflexivity | constructor].
    - destruct (N.eq_dec c GT) as [->|Hc].
      + exists [], (Y ++ GT :: post). split; [reflexivity | constructor].
      + exists (c :: X), post'. simpl. rewrite E.
        split; [reflexivity | constructor; assumption]. }
  exists X, post'. split; [rewrite E; reflexivity | assumption].
Qed.

(** C2: a text without any tag, and a text whose only tags are the empty
    capture [@<>], are both answered with the sentinel. *)
Theorem extractLocation_sentinel t :
  no_tag t \/ only_empty_tags t ->
  extractLocation t = Unspecified.
Proof.
  intros H.
  assert (forall pre X post, tag_occurrence t pre X post -> X = []) as Hall.
  { destruct H as [H|[_ H]]; [|assumption].
    intros pre X post Hocc. elim (H _ _ _ Hocc). }
  apply extractLocation_of_no_match, String_match_nowhere.
  intros pre s ->.
  destruct (match_here s) as [x|] eqn:Hm; [|reflexivity].
  destruct (match_is_tag pre _ _ Hm) as (post & Hocc & Hne).
  elim Hne. eapply Hall. eassumption.
Qed.

(** Texts in which the search fails have empty tags only. *)
Lemma String_match_None_tags t :
  String_match t = None ->
  forall pre X post, tag_occurrence t pre X post -> X = [].
Proof.
  intros H pre X post [E Hx].
  pose proof (String_match_None_suffix t H pre _ E) as Hm.
  rewrite match_here_None in Hm. eapply Hm; [reflexivity | assumption].
Qed.

Lemma extractLocation_sentinel_witness :
  extractLocation (lit "no tag here") = Unspecified
  /\ extractLocation (lit "see @<> here") = Unspecified.
Proof.
  split.
  - apply (extractLocation_sentinel (lit "no tag here")). left.
    intros pre X post [E _].
    assert (In GT (lit "no tag here")) as Hin.
    { rewrite E. apply in_or_app. right. right. right.
      apply in_or_app. right. left. reflexivity. }
    vm_compute in Hin. intuition discriminate.
  - apply (extractLocation_sentinel (lit "see @<> here")). right. split.
    + exists (lit "see "), (lit " here"). split; [reflexivity | constructor].
    + apply String_match_None_tags. reflexivity.
Defined.

Lemma trim_empty_iff X : trim X = [] <-> all_whitespace X.
Proof.
  split.
  - intros H. destruct (trim_split X) as (l & r & E & Hl & Hr).
    rewrite H in E. rewrite E. unfold all_whitespace in *.
    apply Forall_app. auto.
  - intros H. unfold trim.
    assert (trimStart X = []) as ->; [|reflexivity].
    induction H as [|c X Hc _ IH]; simpl; [reflexivity|].
    rewrite Hc. assumption.
Qed.

(** [extractLocation] answers the empty string exactly on the texts whose
    first tag holds white space only. *)
Lemma extractLocation_empty_iff t :
  extractLocation t = [] <->
  exists g, String_match t = Some g /\ all_whitespace g.
Proof.
  unfold extractLocation. split.
  - destruct (String_match t) as [g|] eqn:E; [|discriminate].
    destruct g as [|c g]; [discriminate|]. simpl.
    intros H. exists (c :: g). split; [reflexivity|].
    apply trim_empty_iff. assumption.
  - intros (g & E & Hg).
    pose proof (String_match_nonempty t g E) as Hne. rewrite E.
    destruct g as [|c g]; [congruence|]. simpl.
    apply trim_empty_iff. assumption.
Qed.

End ExtractLocation.

(** ** Claims on [prettyTime] *)

Section PrettyTime.

Lemma Qfloor_unique z x :
  (inject_Z z <= x)%Q -> (x < inject_Z (z + 1))%Q -> Qfloor x = z.
Proof.
  intros Hlo Hhi.
  pose proof (Qfloor_le x) as Fl. pose proof (Qlt_floor x) as Fh.
  assert (inject_Z z < inject_Z (Qfloor x + 1))%Q as A
      by (eapply Qle_lt_trans; eassumption).
  assert (inject_Z (Qfloor x) < inject_Z (z + 1))%Q as B
      by (eapply Qle_lt_trans; eassumption).
  rewrite <- Zlt_Qlt in A, B. lia.
Qed.

(** [Math.round] is rounding to the nearest integer, half up. *)
Lemma Math_round_half_up x : Math_round x = round_half_up x.
Proof.
  unfold Math_round, round_half_up.
  pose proof (Qfloor_le x) as Fl. pose proof (Qlt_floor x) as Fh.
  rewrite inject_Z_plus in Fh. change (inject_Z 1) with 1%Q in Fh.
  destruct (Qle_bool (1 # 2) (x - inject_Z (Qfloor x))) eqn:E.
  - apply Qle_bool_iff in E. apply Qfloor_unique;
      rewrite !inject_Z_plus; change (inject_Z 1) with 1%Q; lra.
  - assert (~ (1 # 2 <= x - inject_Z (Qfloor x))%Q) as N.
    { intros H. apply Qle_bool_iff in H. congruence. }
    apply Qfloor_unique;
      rewrite ?inject_Z_plus; change (inject_Z 1) with 1%Q; lra.
Qed.

(** The rounded value is within one half of the argument, the upper
    bound strict. *)
Lemma Math_round_nearest x :
  (inject_Z (Math_round x) - (1 # 2) <= x
   /\ x < inject_Z (Math_round x) + (1 # 2))%Q.
Proof.
  unfold Math_round.
  pose proof (Qfloor_le (x + (1 # 2))) as Fl.
  pose proof (Qlt_floor (x + (1 # 2))) as Fh.
  rewrite inject_Z_plus in Fh. change (inject_Z 1) with 1%Q in Fh.
  split; lra.
Qed.

(** The three quotients of [prettyTime], in integer arithmetic. *)
Lemma Math_round_div_60000 n :
  Math_round (inject_Z n / 60000) = (n + 30000) / 60000.
Proof.
  unfold Math_round, Qfloor, Qdiv, Qmult, Qinv, Qplus, inject_Z. simpl.
  replace (n * 1 * 2 + 60000) with ((n + 30000) * 2) by lia.
  change 120000 with (60000 * 2).
  apply Z.div_mul_cancel_r; lia.
Qed.

Lemma Math_round_div_60 n :
  Math_round (inject_Z n / 60) = (n + 30) / 60.
Proof.
  unfold Math_round, Qfloor, Qdiv, Qmult, Qinv, Qplus, inject_Z. simpl.
  replace (n * 1 * 2 + 60) with ((n + 30) * 2) by lia.
  change 120 with (60 * 2).
  apply Z.div_mul_cancel_r; lia.
Qed.

Lemma Math_round_div_24 n :
  Math_round (inject_Z n / 24) = (n + 12) / 24.
Proof.
  unfold Math_round, Qfloor, Qdiv, Qmult, Qinv, Qplus, inject_Z. simpl.
  replace (n * 1 * 2 + 24) with ((n + 12) * 2) by lia.
  change 48 with (24 * 2).
  apply Z.div_mul_cancel_r; lia.
Qed.

(** [prettyTime] is the rendering of the specified rule. *)
Lemma prettyTime_refines now instant :
  prettyTime now instant = render (spec_relative (now - instant)).
Proof.
  unfold prettyTime, spec_relative, render.
  rewrite <- !Math_round_half_up.
  destruct (Z.max 1 (Math_round (inject_Z (now - instant) / 60000)) <? 60);
    [reflexivity|].
  destruct (Math_round
              (inject_Z
                 (Z.max 1 (Math_round (inject_Z (now - instant) / 60000)))
               / 60) <? 24);
    reflexivity.
Qed.

Lemma spec_relative_positive elapsed : 1 <= fst (spec_relative elapsed).
Proof.
  unfold spec_relative. rewrite <- !Math_round_half_up.
  rewrite Math_round_div_60000.
  set (minutes := Z.max 1 ((elapsed + 30000) / 60000)).
  destruct (Z.ltb_spec minutes 60) as [|Hm]; [simpl; lia|].
  rewrite Math_round_div_60.
  destruct (Z.ltb_spec ((minutes + 30) / 60) 24) as [|Hh]; simpl.
  - apply Z.div_le_lower_bound; lia.
  - rewrite Math_round_div_24. apply Z.div_le_lower_bound; lia.
Qed.

(** C8: for an instant at or before now, [prettyTime] renders the
    specified rule (minutes, clamped below at 1, then hours, then days,
    each rounded to nearest with a half going up); the rendered number is
    at least 1; and 150 minutes are rendered as "3h ago". *)
Theorem prettyTime_rule now instant :
  instant <= now ->
  prettyTime now instant = render (spec_relative (now - instant))
  /\ 1 <= fst (spec_relative (now - instant))
  /\ prettyTime now (now - 150 * 60000) = lit "3h ago".
Proof.
  intros _. split; [apply prettyTime_refines|].
  split; [apply spec_relative_positive|].
  unfold prettyTime.
  replace (now - (now - 150 * 60000)) with 9000000 by lia.
  vm_compute. reflexivity.
Qed.

Lemma prettyTime_rule_witness :
  prettyTime 1700000000000 (1700000000000 - 45 * 60000)
  = render (spec_relative (1700000000000 - (1700000000000 - 45 * 60000)))
  /\ 1 <= fst (spec_relative
                 (1700000000000 - (1700000000000 - 45 * 60000)))
  /\ prettyTime 1700000000000 (1700000000000 - 150 * 60000) = lit "3h ago".
Proof.
  apply (prettyTime_rule 1700000000000 (1700000000000 - 45 * 60000)).
  lia.
Defined.

(** C10: a timestamp that is not earlier than now, the future included,
    is rendered as "1m ago"; and whatever the timestamp, [prettyTime]
    renders a number that is at least 1, never a negative duration. *)
Theorem prettyTime_not_earlier now timestamp :
  now <= timestamp ->
  prettyTime now timestamp = lit "1m ago"
  /\ (forall any, exists n u,
         1 <= n /\ prettyTime now any = Number_toString n ++ suffix u).
Proof.
  intros H. split.
  - unfold prettyTime. rewrite Math_round_div_60000.
    assert ((now - timestamp + 30000) / 60000 <= 0) as Hq.
    { assert ((now - timestamp + 30000) / 60000 < 1); [|lia].
      apply Z.div_lt_upper_bound; lia. }
    rewrite Z.max_l by lia. reflexivity.
  - intros any.
    exists (fst (spec_relative (now - any))), (snd (spec_relative (now - any))).
    split; [apply spec_relative_positive | apply prettyTime_refines].
Qed.

Lemma prettyTime_not_earlier_witness :
  prettyTime 1700000000000 1700000360000 = lit "1m ago"
  /\ (forall any, exists n u,
         1 <= n
         /\ prettyTime 1700000000000 any = Number_toString n ++ suffix u).
Proof.
  apply (prettyTime_not_earlier 1700000000000 1700000360000). lia.
Defined.

End PrettyTime.

(** ** The map of counts *)

Section Counts.

Lemma eqb_spec a b : reflect (a = b) (JsString.eqb a b).
Proof.
  revert b. induction a as [|x a IH]; intros [|y b]; simpl;
    try (constructor; congruence).
  destruct (N.eqb_spec x y) as [->|Hxy]; simpl.
  - destruct (IH b) as [->|Hab]; constructor; congruence.
  - constructor. congruence.
Qed.

Lemma get_None_keys k m : JsMap.get k m = None <-> ~ In k (keys m).
Proof.
  induction m as [|[k' v] m IH]; simpl.
  - tauto.
  - destruct (eqb_spec k' k) as [->|Hk].
    + split; [discriminate | intros H; elim H; auto].
    + rewrite IH. split; [intros H [E|Hin]; auto | tauto].
Qed.

Lemma keys_bump k m :
  keys (bump k m) = if in_dec jsstring_eq_dec k (keys m)
                    then keys m else keys m ++ [k].
Proof.
  unfold bump. generalize (nullish (JsMap.get k m) 0 + 1). intros v.
  induction m as [|[k' v'] m IH]; simpl.
  - reflexivity.
  - destruct (eqb_spec k' k) as [->|Hk]; simpl.
    + destruct (jsstring_eq_dec k k); [reflexivity | congruence].
    + rewrite IH. destruct (jsstring_eq_dec k' k); [congruence|].
      destruct (in_dec jsstring_eq_dec k (keys m)); reflexivity.
Qed.

Lemma total_set k v m :
  total (JsMap.set k v m) = total m - nullish (JsMap.get k m) 0 + v.
Proof.
  induction m as [|[k' v'] m IH]; unfold total in *; simpl.
  - lia.
  - destruct (eqb_spec k' k); simpl; [lia | rewrite IH; lia].
Qed.

Lemma total_bump k m : total (bump k m) = total m + 1.
Proof. unfold bump. rewrite total_set. lia. Qed.

Lemma NoDup_keys_bump k m : NoDup (keys m) -> NoDup (keys (bump k m)).
Proof.
  intros H. rewrite keys_bump.
  destruct (in_dec jsstring_eq_dec k (keys m)) as [|Hn]; [assumption|].
  apply NoDup_app; [assumption | repeat constructor; intros [] | ].
  intros x Hx [<-|[]]. contradiction.
Qed.

Lemma In_keys_bump k m x : In x (keys (bump k m)) <-> x = k \/ In x (keys m).
Proof.
  rewrite keys_bump.
  destruct (in_dec jsstring_eq_dec k (keys m)) as [Hin|Hn].
  - split; [auto | intros [->|]; assumption].
  - rewrite in_app_iff. simpl. intuition congruence.
Qed.

Lemma countLocations_count_from l : countLocations l = count_from [] l.
Proof. reflexivity. Qed.

Lemma count_from_total l : forall m,
  total (count_from m l) = total m + Z.of_nat (List.length l).
Proof.
  induction l as [|s l IH]; intros m; simpl.
  - lia.
  - unfold count_from in *. simpl. rewrite IH, total_bump. lia.
Qed.

Lemma count_from_NoDup l : forall m,
  NoDup (keys m) -> NoDup (keys (count_from m l)).
Proof.
  induction l as [|s l IH]; intros m H; [assumption|].
  unfold count_from in *. simpl. apply IH, NoDup_keys_bump, H.
Qed.

Lemma count_from_keys l : forall m x,
  In x (keys (count_from m l)) <->
  In x (keys m) \/ In x (List.map Sighting.location l).
Proof.
  induction l as [|s l IH]; intros m x; simpl.
  - tauto.
  - unfold count_from in *. simpl. rewrite IH, In_keys_bump.
    intuition congruence.
Qed.

(** The counts are a function of the sequence of locations alone. *)
Lemma count_from_locations l l' : forall m,
  List.map Sighting.location l = List.map Sighting.location l' ->
  count_from m l = count_from m l'.
Proof.
  revert l'. induction l as [|s l IH]; intros [|s' l'] m E;
    try discriminate; [reflexivity|].
  simpl in E. injection E as E1 E2.
  unfold count_from in *. simpl. rewrite E1. apply IH. assumption.
Qed.

End Counts.

(** ** The sort *)

Section SortFacts.

Context {A : Type} (cmp : A -> A -> Z).

Lemma insert_Permutation x l : Permutation (JsArray.insert cmp x l) (x :: l).
Proof.
  induction l as [|y l IH]; simpl; [reflexivity|].
  destruct (cmp x y <=? 0); [reflexivity|].
  rewrite IH. apply perm_swap.
Qed.

Lemma sort_Permutation l : Permutation (JsArray.sort cmp l) l.
Proof.
  induction l as [|x l IH]; simpl; [constructor|].
  rewrite insert_Permutation. constructor. assumption.
Qed.

(** [a] is not placed after [b]. *)
Let not_after (a b : A) : Prop := cmp a b <= 0.

Hypothesis Hcmp : consistent cmp.

Lemma not_after_total a b : 0 < cmp a b -> not_after b a.
Proof.
  intros H. unfold not_after.
  pose proof (cmp_antisym cmp Hcmp a b) as E.
  rewrite (Z.sgn_pos (cmp a b)) in E by assumption.
  destruct (Z.sgn_spec (cmp b a)) as [[? ?]|[[? ?]|[? ?]]]; lia.
Qed.

Lemma insert_HdRel x y l :
  not_after y x -> HdRel not_after y l ->
  HdRel not_after y (JsArray.insert cmp x l).
Proof.
  intros Hyx H. destruct l as [|z l]; simpl.
  - constructor. assumption.
  - destruct (cmp x z <=? 0); constructor; [assumption|].
    inversion H; assumption.
Qed.

Lemma insert_Sorted x l :
  Sorted not_after l -> Sorted not_after (JsArray.insert cmp x l).
Proof.
  induction l as [|y l IH]; intros H; simpl.
  - repeat constructor.
  - destruct (Z.leb_spec (cmp x y) 0) as [Hle|Hgt].
    + constructor; [assumption | constructor; assumption].
    + inversion H as [|? ? Hs Hh]; subst. constructor.
      * apply IH. assumption.
      * apply insert_HdRel; [apply not_after_total; assumption | assumption].
Qed.

Lemma sort_Sorted l : Sorted not_after (JsArray.sort cmp l).
Proof.
  induction l as [|x l IH]; simpl; [constructor|].
  apply insert_Sorted. assumption.
Qed.

(** A locally sorted list relates each entry to the next one. *)
Lemma Sorted_adjacent (R : A -> A -> Prop) l :
  Sorted R l ->
  forall i a b, nth_error l i = Some a -> nth_error l (S i) = Some b -> R a b.
Proof.
  induction 1 as [|x l Hs IH Hh]; intros i a b Ha Hb.
  - destruct i; discriminate.
  - destruct i as [|i].
    + simpl in Ha, Hb. injection Ha as ->.
      destruct l as [|y l]; [discriminate|]. simpl in Hb.
      injection Hb as ->. inversion Hh. assumption.
    + simpl in Ha. apply (IH i); assumption.
Qed.

Lemma sort_adjacent l i a b :
  nth_error (JsArray.sort cmp l) i = Some a ->
  nth_error (JsArray.sort cmp l) (S i) = Some b ->
  cmp a b <= 0.
Proof. apply (Sorted_adjacent not_after), sort_Sorted. Qed.

End SortFacts.

(** Comparison by code units is a consistent comparator. *)
Lemma lexCompare_consistent : consistent lexCompare.
Proof.
  split.
  - induction a as [|x a IH]; intros [|y b]; simpl; try reflexivity.
    rewrite (N.compare_antisym x y).
    destruct (N.compare x y); simpl; auto.
  - induction a as [|x a IH]; intros [|y b] [|z c]; simpl; try lia.
    destruct (N.compare_spec x y) as [->|Hxy|Hxy]; try lia.
    + destruct (N.compare y z); try lia. apply IH.
    + destruct (N.compare_spec y z) as [->|Hyz|Hyz]; try lia.
      * intros _ _. destruct (N.compare_spec x z); lia.
      * intros _ _. destruct (N.compare_spec x z); lia.
Qed.

(** ** Claims on [distribution] *)

Section Distribution.

Variable localeCompare : jsstring -> jsstring -> Z.

(** The array handed to [sort]: the entries of the map as objects. *)
Let items (l : list Sighting.t) : list Item.t :=
  List.map (fun e => Item.mk (fst e) (snd e)) (JsMap.entries (countLocations l)).

Lemma distribution_Permutation l :
  Permutation (distribution localeCompare l) (items l).
Proof. apply sort_Permutation. Qed.

Lemma sum_counts_Permutation a b :
  Permutation a b -> sum_counts a = sum_counts b.
Proof.
  unfold sum_counts. induction 1; simpl; lia.
Qed.

Lemma items_locations l : List.map Item.location (items l) = keys (countLocations l).
Proof.
  unfold items, keys, JsMap.entries. rewrite map_map. reflexivity.
Qed.

Lemma items_counts l : sum_counts (items l) = total (countLocations l).
Proof.
  unfold sum_counts, items, total, JsMap.entries. rewrite map_map. reflexivity.
Qed.

Lemma NoDup_keys_countLocations l : NoDup (keys (countLocations l)).
Proof. apply count_from_NoDup. constructor. Qed.

Lemma In_keys_countLocations l x :
  In x (keys (countLocations l)) <-> In x (List.map Sighting.location l).
Proof.
  rewrite countLocations_count_from, count_from_keys. simpl. tauto.
Qed.

(** C3: the counts of the distribution add up to the number of sightings;
    no location is listed twice; the locations listed are those of the
    sightings, so there is one entry per distinct location; and an empty
    collection has an empty distribution. *)
Theorem distribution_counts l :
  sum_counts (distribution localeCompare l) = Z.of_nat (List.length l)
  /\ NoDup (List.map Item.location (distribution localeCompare l))
  /\ (forall loc,
         In loc (List.map Item.location (distribution localeCompare l))
         <-> In loc (List.map Sighting.location l))
  /\ List.length (distribution localeCompare l)
     = List.length (distinct_locations l)
  /\ distribution localeCompare [] = [].
Proof.
  pose proof (distribution_Permutation l) as P.
  pose proof (Permutation_map Item.location P) as PL.
  rewrite items_locations in PL.
  split; [|split; [|split; [|split]]].
  - rewrite (sum_counts_Permutation _ _ P), items_counts.
    rewrite countLocations_count_from, count_from_total. reflexivity.
  - apply (Permutation_NoDup (Permutation_sym PL)), NoDup_keys_countLocations.
  - intros loc. rewrite <- In_keys_countLocations.
    split; apply Permutation_in; [assumption | apply Permutation_sym; assumption].
  - rewrite <- (length_map Item.location), (Permutation_length PL).
    apply Permutation_length, NoDup_Permutation.
    + apply NoDup_keys_countLocations.
    + apply NoDup_nodup.
    + intros x. unfold distinct_locations.
      rewrite nodup_In. apply In_keys_countLocations.
  - reflexivity.
Qed.

Lemma compareItems_consistent :
  consistent localeCompare -> consistent (compareItems localeCompare).
Proof.
  intros [Ha Ht]. split; unfold compareItems.
  - intros a b.
    destruct (Z.eqb_spec (Item.count b - Item.count a) 0) as [E|E],
             (Z.eqb_spec (Item.count a - Item.count b) 0) as [E'|E'];
      try lia.
    apply Ha.
  - intros a b c.
    destruct (Z.eqb_spec (Item.count b - Item.count a) 0),
             (Z.eqb_spec (Item.count c - Item.count b) 0),
             (Z.eqb_spec (Item.count c - Item.count a) 0);
      try lia.
    apply Ht.
Qed.

Lemma compareItems_ranked a b :
  compareItems localeCompare a b <= 0 -> ranked_before localeCompare a b.
Proof.
  unfold compareItems, ranked_before.
  destruct (Z.eqb_spec (Item.count b - Item.count a) 0); intros H.
  - right. split; [lia | assumption].
  - left. lia.
Qed.

(** C4, as amended: in the distribution every entry and the one after it
    are in ranking order, a larger count first and, at equal counts, the
    location that the host's [localeCompare] does not put after (the
    collation of the host, not the order of the code units); and the
    distribution is a function of the sequence of locations, so equal
    inputs give equal outputs. *)
Theorem distribution_sorted l :
  consistent localeCompare ->
  (forall i a b,
      nth_error (distribution localeCompare l) i = Some a ->
      nth_error (distribution localeCompare l) (S i) = Some b ->
      ranked_before localeCompare a b)
  /\ (forall l',
         List.map Sighting.location l' = List.map Sighting.location l ->
         distribution localeCompare l' = distribution localeCompare l).
Proof.
  intros Hc. split.
  - intros i a b Ha Hb. apply compareItems_ranked.
    apply (sort_adjacent _ (compareItems_consistent Hc) (items l) i);
      assumption.
  - intros l' E. unfold distribution.
    rewrite !countLocations_count_from, (count_from_locations _ _ _ E).
    reflexivity.
Qed.

End Distribution.

(** Whatever else the host's comparison does, once it puts ["a"] before
    ["B"], as collations do, the two locations are listed in that order. *)
Lemma distribution_a_B (localeCompare : jsstring -> jsstring -> Z) :
  localeCompare (lit "a") (lit "B") < 0 ->
  distribution localeCompare [demoSighting "a"; demoSighting "B"]
  = [Item.mk (lit "a") 1; Item.mk (lit "B") 1].
Proof.
  intros H. unfold distribution, countLocations, JsMap.entries.
  simpl. unfold compareItems. simpl.
  destruct (Z.leb_spec (localeCompare (lit "a") (lit "B")) 0); [reflexivity|].
  lia.
Qed.

Lemma caseFirstCompare_a_B : caseFirstCompare (lit "a") (lit "B") < 0.
Proof. reflexivity. Qed.

(** C4, as stated, fails: with a comparison that, like the host's, puts
    ["a"] before ["B"], the sightings at ["a"] and ["B"] are listed as
    [a, B], one sighting each, and ["a"] is after ["B"] in lexicographic
    order. *)
Lemma distribution_ties_not_lexicographic :
  ~ (forall i a b,
        nth_error (distribution caseFirstCompare
                     [demoSighting "a"; demoSighting "B"]) i = Some a ->
        nth_error (distribution caseFirstCompare
                     [demoSighting "a"; demoSighting "B"]) (S i) = Some b ->
        Item.count a > Item.count b
        \/ (Item.count a = Item.count b
            /\ lexCompare (Item.location a) (Item.location b) <= 0)).
Proof.
  intros H.
  rewrite (distribution_a_B caseFirstCompare caseFirstCompare_a_B) in H.
  specialize (H 0%nat (Item.mk (lit "a") 1) (Item.mk (lit "B") 1)
                eq_refl eq_refl).
  simpl in H. destruct H as [H|[_ H]]; [lia|].
  vm_compute in H. apply H. reflexivity.
Qed.

Example distribution_atrium_patio :
  distribution lexCompare
    [demoSighting "Atrium"; demoSighting "Atrium"; demoSighting "Patio"]
  = [Item.mk (lit "Atrium") 2; Item.mk (lit "Patio") 1].
Proof. reflexivity. Qed.

Example distribution_ties :
  distribution lexCompare
    [demoSighting "Patio"; demoSighting "Atrium";
     demoSighting "Lawn"; demoSighting "Atrium"]
  = [Item.mk (lit "Atrium") 2; Item.mk (lit "Lawn") 1; Item.mk (lit "Patio") 1].
Proof. reflexivity. Qed.

(** ** Claims on [handleSubmit] *)

Section HandleSubmit.

Variable File : Type.
Variable p : Platform File.

Implicit Types st : State File.

(** The three ways a submission goes, by the checks of the handler. *)
Lemma handleSubmit_blank st :
  trim (description st) = [] ->
  handleSubmit p st = setErrors File (Some (message MissingDescription)) st.
Proof.
  intros H. unfold handleSubmit. simpl. rewrite H. reflexivity.
Qed.

Lemma handleSubmit_no_file st :
  trim (description st) <> [] -> file st = None ->
  handleSubmit p st = setErrors File (Some (message MissingImage)) st.
Proof.
  intros H Hf. unfold handleSubmit. simpl.
  destruct (trim (description st)); [congruence|]. simpl.
  rewrite Hf. reflexivity.
Qed.

Lemma readFile_reject ev e :
  readFile ev = reject e -> e = Error (message ImageReadError).
Proof.
  destruct ev as [[s|]|]; simpl; congruence.
Qed.

Lemma handleSubmit_unreadable st f :
  trim (description st) <> [] -> file st = Some f -> unreadable p f ->
  handleSubmit p st = setErrors File (Some (message ImageReadError)) st.
Proof.
  intros H Hf Hu. unfold handleSubmit. simpl.
  destruct (trim (description st)); [congruence|]. simpl.
  rewrite Hf.
  destruct (readFile (readAsDataURL p f)) as [url|e] eqn:E.
  - elim (Hu url). assumption.
  - rewrite (readFile_reject _ _ E). reflexivity.
Qed.

Lemma handleSubmit_accepted st f url :
  trim (description st) <> [] -> file st = Some f ->
  readFile (readAsDataURL p f) = resolve url ->
  handleSubmit p st =
  mkState []  None
    (Sighting.mk (randomUUID p) (description st)
       (extractLocation (description st)) url (Date_now p) :: sightings st)
    None.
Proof.
  intros H Hf Hr. unfold handleSubmit. simpl.
  destruct (trim (description st)); [congruence|]. simpl.
  rewrite Hf, Hr. reflexivity.
Qed.

(** Every submission takes one of the four ways. *)
Lemma handleSubmit_cases st :
  (trim (description st) = []
   /\ handleSubmit p st = setErrors File (Some (message MissingDescription)) st)
  \/ (trim (description st) <> [] /\ file st = None
      /\ handleSubmit p st = setErrors File (Some (message MissingImage)) st)
  \/ (exists f, trim (description st) <> [] /\ file st = Some f
                /\ unreadable p f
                /\ handleSubmit p st
                   = setErrors File (Some (message ImageReadError)) st)
  \/ (exists f url,
         trim (description st) <> [] /\ file st = Some f
         /\ readFile (readAsDataURL p f) = resolve url
         /\ handleSubmit p st =
            mkState [] None
              (Sighting.mk (randomUUID p) (description st)
                 (extractLocation (description st)) url (Date_now p)
               :: sightings st)
              None).
Proof.
  destruct (trim (description st)) as [|c d] eqn:Ht.
  - left. split; [reflexivity | apply handleSubmit_blank; assumption].
  - assert (trim (description st) <> []) as Hne by (rewrite Ht; discriminate).
    rewrite <- Ht. right.
    destruct (file st) as [f|] eqn:Hf.
    + right. destruct (readFile (readAsDataURL p f)) as [url|e] eqn:Hr.
      * right. exists f, url. repeat split; try assumption.
        apply (handleSubmit_accepted st f url); assumption.
      * left. exists f.
        assert (unreadable p f) as Hu by (intros url; congruence).
        repeat split; try assumption.
        apply (handleSubmit_unreadable st f); assumption.
    + left. repeat split; try assumption.
      apply handleSubmit_no_file; assumption.
Qed.

End HandleSubmit.

(** C5: the checks are made in a fixed order.  A description that is empty
    once trimmed fails with [MissingDescription] whatever the image and
    whatever the platform would answer; otherwise a missing image fails
    with [MissingImage]; otherwise an image that cannot be read fails with
    [ImageReadError]. *)
Theorem handleSubmit_validation_order {File} (p : Platform File) (st : State File) :
  (trim (description st) = [] ->
   forall p' image,
     fails_with (handleSubmit p' (setFile File image st)) MissingDescription)
  /\ (trim (description st) <> [] -> file st = None ->
      fails_with (handleSubmit p st) MissingImage)
  /\ (forall f,
         trim (description st) <> [] -> file st = Some f -> unreadable p f ->
         fails_with (handleSubmit p st) ImageReadError).
Proof.
  split; [|split].
  - intros H p' image.
    rewrite handleSubmit_blank by assumption. reflexivity.
  - intros H Hf. rewrite handleSubmit_no_file by assumption. reflexivity.
  - intros f H Hf Hu.
    rewrite (handleSubmit_unreadable File p st f) by assumption. reflexivity.
Qed.

Lemma handleSubmit_validation_order_witness :
  fails_with
    (handleSubmit demoPlatform
       (setFile nat (Some 0%nat) (mkState (lit "  ") None [] None)))
    MissingDescription
  /\ fails_with
       (handleSubmit demoPlatform (mkState (lit "valid text @<Lab>") None [] None))
       MissingImage
  /\ fails_with
       (handleSubmit demoPlatform
          (mkState (lit "valid text @<Lab>") (Some 2%nat) [] None))
       ImageReadError.
Proof.
  split; [|split].
  - apply (proj1 (handleSubmit_validation_order demoPlatform
                    (mkState (lit "  ") None [] None))).
    reflexivity.
  - apply (proj1 (proj2 (handleSubmit_validation_order demoPlatform
                           (mkState (lit "valid text @<Lab>") None [] None)))).
    + discriminate.
    + reflexivity.
  - apply (proj2 (proj2 (handleSubmit_validation_order demoPlatform
                           (mkState (lit "valid text @<Lab>") (Some 2%nat) [] None)))
             2%nat).
    + discriminate.
    + reflexivity.
    + intros url. discriminate.
Defined.

(** A failure is one of the three kinds of the taxonomy. *)
Lemma failed_typed {File} (p : Platform File) (st : State File) :
  failed (handleSubmit p st) <-> exists e, fails_with (handleSubmit p st) e.
Proof.
  unfold failed, fails_with. split.
  - intros H.
    destruct (handleSubmit_cases File p st)
      as [[_ E]|[(_ & _ & E)|[(f & _ & _ & _ & E)|(f & url & _ & _ & _ & E)]]];
      rewrite E in *.
    + exists MissingDescription. reflexivity.
    + exists MissingImage. reflexivity.
    + exists ImageReadError. reflexivity.
    + elim H. reflexivity.
  - intros [e ->]. discriminate.
Qed.

(** C6: a failed submission, of whichever kind, leaves the collection, the
    description and the selected file as they were. *)
Theorem handleSubmit_failure_keeps_input {File} (p : Platform File) (st : State File) :
  failed (handleSubmit p st) ->
  sightings (handleSubmit p st) = sightings st
  /\ description (handleSubmit p st) = description st
  /\ file (handleSubmit p st) = file st.
Proof.
  unfold failed. intros H.
  destruct (handleSubmit_cases File p st)
    as [[_ E]|[(_ & _ & E)|[(f & _ & _ & _ & E)|(f & url & _ & _ & _ & E)]]];
    rewrite E in *; simpl in *; auto. congruence.
Qed.

Lemma handleSubmit_failure_keeps_input_witness :
  sightings (handleSubmit demoPlatform
               (mkState (lit "moths @<Lab>") (Some 1%nat)
                  [demoSighting "Atrium"] None))
  = [demoSighting "Atrium"]
  /\ description (handleSubmit demoPlatform
                    (mkState (lit "moths @<Lab>") (Some 1%nat)
                       [demoSighting "Atrium"] None))
     = lit "moths @<Lab>"
  /\ file (handleSubmit demoPlatform
             (mkState (lit "moths @<Lab>") (Some 1%nat)
                [demoSighting "Atrium"] None))
     = Some 1%nat.
Proof.
  apply (handleSubmit_failure_keeps_input demoPlatform
           (mkState (lit "moths @<Lab>") (Some 1%nat)
              [demoSighting "Atrium"] None)).
  discriminate.
Defined.

Lemma handleSubmit_success_cases {File} (p : Platform File) (st : State File) :
  succeeded (handleSubmit p st) ->
  exists f url,
    trim (description st) <> [] /\ file st = Some f
    /\ readFile (readAsDataURL p f) = resolve url
    /\ handleSubmit p st =
       mkState [] None
         (Sighting.mk (randomUUID p) (description st)
            (extractLocation (description st)) url (Date_now p)
          :: sightings st)
         None.
Proof.
  unfold succeeded. intros H.
  destruct (handleSubmit_cases File p st)
    as [[_ E]|[(_ & _ & E)|[(f & _ & _ & _ & E)|(f & url & ? & ? & ? & E)]]];
    try (rewrite E in H; discriminate H).
  exists f, url. auto.
Qed.

(** C7: a successful submission puts the new sighting in front of the
    collection and leaves every former entry in place: entry [i] of the
    old collection is entry [i + 1] of the new one, and nothing is
    removed. *)
Theorem handleSubmit_success_prepends {File} (p : Platform File) (st : State File) :
  succeeded (handleSubmit p st) ->
  exists s url,
    sightings (handleSubmit p st) = s :: sightings st
    /\ s = Sighting.mk (randomUUID p) (description st)
             (extractLocation (description st)) url (Date_now p)
    /\ (forall i, nth_error (sightings (handleSubmit p st)) (S i)
                  = nth_error (sightings st) i)
    /\ List.length (sightings (handleSubmit p st))
       = S (List.length (sightings st)).
Proof.
  unfold succeeded. intros H.
  destruct (handleSubmit_cases File p st)
    as [[_ E]|[(_ & _ & E)|[(f & _ & _ & _ & E)|(f & url & _ & _ & _ & E)]]];
    rewrite E in *; simpl in *; try discriminate.
  eexists; exists url. repeat split.
Qed.

Lemma handleSubmit_success_prepends_witness :
  exists s url,
    sightings (handleSubmit demoPlatform
                 (mkState (lit "moths @<Lab>") (Some 0%nat)
                    [demoSighting "Atrium"; demoSighting "Patio"] None))
    = s :: [demoSighting "Atrium"; demoSighting "Patio"]
    /\ s = Sighting.mk (randomUUID demoPlatform) (lit "moths @<Lab>")
             (extractLocation (lit "moths @<Lab>")) url (Date_now demoPlatform)
    /\ (forall i,
           nth_error
             (sightings (handleSubmit demoPlatform
                           (mkState (lit "moths @<Lab>") (Some 0%nat)
                              [demoSighting "Atrium"; demoSighting "Patio"] None)))
             (S i)
           = nth_error [demoSighting "Atrium"; demoSighting "Patio"] i)
    /\ List.length
         (sightings (handleSubmit demoPlatform
                       (mkState (lit "moths @<Lab>") (Some 0%nat)
                          [demoSighting "Atrium"; demoSighting "Patio"] None)))
       = 3%nat.
Proof.
  apply (handleSubmit_success_prepends demoPlatform
           (mkState (lit "moths @<Lab>") (Some 0%nat)
              [demoSighting "Atrium"; demoSighting "Patio"] None)).
  reflexivity.
Defined.

(** C9, at a description whose tag holds only a space: the submission is
    accepted, and the sighting it adds has the empty string as location. *)
Theorem handleSubmit_blank_tag_location :
  succeeded (handleSubmit demoPlatform (mkState (lit "@< >") (Some 0%nat) [] None))
  /\ List.map Sighting.location
       (sightings (handleSubmit demoPlatform
                     (mkState (lit "@< >") (Some 0%nat) [] None)))
     = [[]].
Proof. split; reflexivity. Qed.

(** The location of an accepted sighting is empty only in that case: the
    first tag of the description holds white space only. *)
Lemma handleSubmit_location_empty_iff {File} (p : Platform File) (st : State File) :
  succeeded (handleSubmit p st) ->
  exists s, sightings (handleSubmit p st) = s :: sightings st
            /\ (Sighting.location s = [] <->
                exists g, String_match (description st) = Some g
                          /\ all_whitespace g).
Proof.
  intros H.
  destruct (handleSubmit_success_cases p st H) as (f & url & _ & _ & _ & E).
  rewrite E. simpl. eexists. split; [reflexivity|]. simpl.
  apply extractLocation_empty_iff.
Qed.


(** * Further properties *)

(** ** More on [extractLocation] *)

Section ExtractLocationMore.

Lemma String_match_Some_tag t g :
  String_match t = Some g ->
  exists pre post, tag_occurrence t pre g post /\ g <> [].
Proof.
  induction t as [|c t IH]; rewrite String_match_unfold.
  - destruct (match_here []) as [g'|] eqn:Hm; [|discriminate].
    intros [= ->]. destruct (match_is_tag [] _ _ Hm) as (post & H & Hne).
    exists [], post. auto.
  - destruct (match_here (c :: t)) as [g'|] eqn:Hm.
    + intros [= ->]. destruct (match_is_tag [] _ _ Hm) as (post & H & Hne).
      exists [], post. auto.
    + intros H. destruct (IH H) as (pre & post & [E Hx] & Hne).
      exists (c :: pre), post. split; [split|]; try assumption.
      simpl. rewrite E. reflexivity.
Qed.

Lemma trimStart_whitespace ws s :
  all_whitespace ws -> trimStart (ws ++ s) = trimStart s.
Proof.
  induction 1 as [|c ws Hc _ IH]; simpl; [reflexivity|].
  rewrite Hc. assumption.
Qed.

Lemma trimStart_fixed s :
  (forall c s', s = c :: s' -> isWhiteSpace c = false) -> trimStart s = s.
Proof.
  destruct s as [|c s]; intros H; simpl; [reflexivity|].
  rewrite (H c s eq_refl). reflexivity.
Qed.

(** White space around a label that has none at its ends is exactly what
    [trim] removes. *)
Lemma trim_padded ws1 label ws2 :
  all_whitespace ws1 -> all_whitespace ws2 -> trimmed label -> label <> [] ->
  trim (ws1 ++ label ++ ws2) = label.
Proof.
  intros H1 H2 [Hhead Hlast] Hne. unfold trim, trimEnd.
  rewrite trimStart_whitespace by assumption.
  rewrite (trimStart_fixed (label ++ ws2)).
  - rewrite rev_app_distr, trimStart_whitespace
      by (apply Forall_rev; assumption).
    rewrite trimStart_fixed; [apply rev_involutive|].
    intros c s' E. apply (Hlast c (rev s')).
    rewrite <- (rev_involutive label), E. reflexivity.
  - intros c s' E. destruct label as [|d label]; [congruence|].
    simpl in E. injection E as -> _. apply (Hhead c label). reflexivity.
Qed.

Lemma whitespace_no_gt ws : all_whitespace ws -> no_gt ws.
Proof.
  unfold all_whitespace, no_gt. intros H.
  eapply Forall_impl; [|exact H]. intros c Hc ->. discriminate Hc.
Qed.

Lemma trim_no_gt X : no_gt X -> no_gt (trim X).
Proof.
  intros H. destruct (trim_split X) as (l & r & E & _ & _).
  rewrite E in H. apply no_gt_app in H. destruct H as [_ H].
  apply no_gt_app in H. tauto.
Qed.

(** X1: whatever the text, the extracted location has no white space at
    either end and no [>] in it, and it is either the sentinel or the
    trimmed capture of a tag that the text really contains. *)
Theorem extractLocation_shape t :
  trimmed (extractLocation t)
  /\ no_gt (extractLocation t)
  /\ (extractLocation t = Unspecified
      \/ exists pre X post,
           tag_occurrence t pre X post /\ X <> []
           /\ extractLocation t = trim X).
Proof.
  assert (trimmed Unspecified /\ no_gt Unspecified) as [HU1 HU2].
  { split.
    - change Unspecified with (trim Unspecified). apply trim_trimmed.
    - unfold no_gt. repeat constructor; discriminate. }
  destruct (String_match t) as [g|] eqn:E.
  - destruct (String_match_Some_tag t g E) as (pre & post & Hocc & Hne).
    rewrite (extractLocation_of_match t g E Hne).
    split; [apply trim_trimmed|]. split.
    + apply trim_no_gt. apply Hocc.
    + right. exists pre, g, post. auto.
  - rewrite (extractLocation_of_no_match t E). auto.
Qed.

(** The first [>] of a text that has one is the same after appending. *)
Lemma first_gt_within t u x r :
  t ++ u = x ++ GT :: r -> no_gt x -> In GT t ->
  exists r', t = x ++ GT :: r'.
Proof.
  revert t. induction x as [|c x IH]; intros t E Hx Hin.
  - destruct t as [|d t]; [contradiction|].
    simpl in E. injection E as -> _. exists t. reflexivity.
  - destruct t as [|d t]; [contradiction|].
    simpl in E. injection E as -> E.
    inversion Hx as [|? ? Hc Hx']; subst.
    destruct Hin as [Hd|Hin]; [congruence|].
    destruct (IH t E Hx' Hin) as [r' ->]. exists r'. reflexivity.
Qed.

Lemma match_here_app s u g :
  match_here s = Some g -> match_here (s ++ u) = Some g.
Proof.
  intros H. apply match_here_spec in H. destruct H as (r & -> & Hne & Hx).
  apply match_here_spec. exists (r ++ u).
  split; [|auto]. simpl. rewrite <- app_assoc. reflexivity.
Qed.

Lemma match_here_app_None s u :
  match_here s = None -> In GT s -> match_here (s ++ u) = None.
Proof.
  intros H Hin.
  destruct (match_here (s ++ u)) as [g|] eqn:Hm; [|reflexivity].
  apply match_here_spec in Hm. destruct Hm as (r & E & Hne & Hx).
  destruct (first_gt_within s u (AT :: LT :: g) r) as [r' E'].
  - assumption.
  - constructor; [discriminate|]. constructor; [discriminate | assumption].
  - assumption.
  - assert (match_here s = Some g) as Hs.
    { apply match_here_spec. exists r'. auto. }
    congruence.
Qed.

Lemma String_match_app t u g :
  String_match t = Some g -> String_match (t ++ u) = Some g.
Proof.
  induction t as [|c t IH]; rewrite String_match_unfold.
  - destruct (match_here []) eqn:Hm; [|discriminate].
    simpl in Hm. discriminate.
  - destruct (match_here (c :: t)) as [g'|] eqn:Hm.
    + intros [= ->]. rewrite String_match_unfold.
      rewrite (match_here_app _ u _ Hm). reflexivity.
    + intros H. rewrite String_match_unfold.
      rewrite (match_here_app_None (c :: t) u Hm).
      * simpl. apply IH. assumption.
      * destruct (String_match_Some_tag t g H) as (pre & post & [-> _] & _).
        right. apply in_or_app. right. right. right.
        apply in_or_app. right. left. reflexivity.
Qed.

(** X2: once a text holds a tag with a non-empty capture, text added after
    it never changes the extracted location. *)
Theorem extractLocation_append t u :
  (exists pre X post, tag_occurrence t pre X post /\ X <> []) ->
  extractLocation (t ++ u) = extractLocation t.
Proof.
  intros (pre & X & post & Hocc & Hne).
  destruct (String_match t) as [g|] eqn:E.
  - unfold extractLocation. rewrite (String_match_app t u g E), E.
    reflexivity.
  - apply (String_match_None_tags t E) in Hocc. congruence.
Qed.

Lemma extractLocation_append_witness :
  extractLocation (lit "wasps @<Lab> near" ++ lit " the @<Gym> door")
  = extractLocation (lit "wasps @<Lab> near").
Proof.
  apply (extractLocation_append (lit "wasps @<Lab> near") (lit " the @<Gym> door")).
  exists (lit "wasps "), (lit "Lab"), (lit " near").
  split; [split; [reflexivity|] | discriminate].
  unfold no_gt. repeat constructor; discriminate.
Defined.

(** X3: writing a label as a tag and extracting it gives the label back.
    For a non-empty label without [>] and without white space at its ends,
    put between [@<] and [>] with any white space around it, after a text
    without [@] and before any text, the extracted location is the
    label. *)
Theorem extractLocation_round_trip pre ws1 label ws2 post :
  no_at pre ->
  label <> [] -> no_gt label -> trimmed label ->
  all_whitespace ws1 -> all_whitespace ws2 ->
  extractLocation (pre ++ AT :: LT :: (ws1 ++ label ++ ws2) ++ GT :: post)
  = label.
Proof.
  intros Hpre Hne Hgt Htr H1 H2.
  assert (ws1 ++ label ++ ws2 <> []) as HXne.
  { destruct ws1; [destruct label; [congruence | discriminate] | discriminate]. }
  assert (no_gt (ws1 ++ label ++ ws2)) as HX.
  { apply no_gt_app. split; [apply whitespace_no_gt; assumption|].
    apply no_gt_app. split; [assumption | apply whitespace_no_gt; assumption]. }
  rewrite <- (trim_padded ws1 label ws2) at 2 by assumption.
  apply extractLocation_of_match; [|assumption].
  apply String_match_leftmost.
  - apply match_here_spec. exists post. auto.
  - intros pre' s' E Hlt.
    destruct (match_here s') as [g|] eqn:Hm; [|reflexivity].
    apply match_here_spec in Hm. destruct Hm as (r & -> & _ & _).
    exfalso. clear - Hpre E Hlt. revert pre' E Hlt.
    induction Hpre as [|c pre Hc Hpre IH]; intros pre' E Hlt.
    + simpl in Hlt. lia.
    + destruct pre' as [|d pre']; simpl in E.
      * injection E as E _. congruence.
      * injection E as _ E. apply (IH pre' E). simpl in Hlt. lia.
Qed.

Lemma extractLocation_round_trip_witness :
  extractLocation
    (lit "moths by the door " ++ AT :: LT
       :: (lit "  " ++ lit "North Hall" ++ lit " ") ++ GT :: lit " again @<x>")
  = lit "North Hall".
Proof.
  apply (extractLocation_round_trip (lit "moths by the door ") (lit "  ")
           (lit "North Hall") (lit " ") (lit " again @<x>")).
  - unfold no_at. repeat constructor; discriminate.
  - discriminate.
  - unfold no_gt. repeat constructor; discriminate.
  - change (lit "North Hall") with (trim (lit "North Hall")).
    apply trim_trimmed.
  - repeat constructor.
  - repeat constructor.
Defined.

End ExtractLocationMore.

(** ** More on [prettyTime] *)

Section PrettyTimeMore.

(** The label in integer arithmetic. *)
Lemma spec_relative_int e :
  spec_relative e =
  let minutes := Z.max 1 ((e + 30000) / 60000) in
  if minutes <? 60 then (minutes, Minutes)
  else
    let hours := (minutes + 30) / 60 in
    if hours <? 24 then (hours, Hours) else ((hours + 12) / 24, Days).
Proof.
  unfold spec_relative. rewrite <- !Math_round_half_up.
  rewrite Math_round_div_60000, Math_round_div_60, Math_round_div_24.
  reflexivity.
Qed.

Lemma prettyTime_int now timestamp :
  prettyTime now timestamp =
  let minutes := Z.max 1 ((now - timestamp + 30000) / 60000) in
  if minutes <? 60 then Number_toString minutes ++ lit "m ago"
  else
    let hours := (minutes + 30) / 60 in
    if hours <? 24 then Number_toString hours ++ lit "h ago"
    else Number_toString ((hours + 12) / 24) ++ lit "d ago".
Proof.
  unfold prettyTime.
  rewrite Math_round_div_60000, Math_round_div_60, Math_round_div_24.
  reflexivity.
Qed.

(** X4: the unit of the label is decided by two thresholds of the elapsed
    time.  Below 59.5 minutes the label is in minutes, from 1 to 59; from
    there and below 23 hours 29.5 minutes it is in hours, from 1 to 23; from there on it is in days, from 1. *)
Theorem prettyTime_units now timestamp :
  (now - timestamp < 3570000 ->
   exists n, 1 <= n <= 59
             /\ prettyTime now timestamp = Number_toString n ++ lit "m ago")
  /\ (3570000 <= now - timestamp < 84570000 ->
      exists n, 1 <= n <= 23
                /\ prettyTime now timestamp = Number_toString n ++ lit "h ago")
  /\ (84570000 <= now - timestamp ->
      exists n, 1 <= n
                /\ prettyTime now timestamp = Number_toString n ++ lit "d ago").
Proof.
  rewrite prettyTime_int. cbv zeta.
  set (d := now - timestamp).
  set (q := (d + 30000) / 60000).
  assert (60000 * q <= d + 30000 < 60000 * q + 60000) as Hq.
  { unfold q. Z.div_mod_to_equations. lia. }
  set (m := Z.max 1 q).
  set (h := (m + 30) / 60).
  assert (60 * h <= m + 30 < 60 * h + 60) as Hh.
  { unfold h. Z.div_mod_to_equations. lia. }
  set (D := (h + 12) / 24).
  assert (24 * D <= h + 12 < 24 * D + 24) as HD.
  { unfold D. Z.div_mod_to_equations. lia. }
  split; [|split]; intros Hd.
  - destruct (Z.ltb_spec m 60); [|lia]. exists m. split; [lia | reflexivity].
  - destruct (Z.ltb_spec m 60); [lia|].
    destruct (Z.ltb_spec h 24); [|lia]. exists h. split; [lia | reflexivity].
  - destruct (Z.ltb_spec m 60); [lia|].
    destruct (Z.ltb_spec h 24); [lia|]. exists D. split; [lia | reflexivity].
Qed.

Lemma prettyTime_units_witness :
  (exists n, 1 <= n <= 59
             /\ prettyTime 1700000000000 (1700000000000 - 3569999)
                = Number_toString n ++ lit "m ago")
  /\ (exists n, 1 <= n <= 23
                /\ prettyTime 1700000000000 (1700000000000 - 3570000)
                   = Number_toString n ++ lit "h ago")
  /\ (exists n, 1 <= n
                /\ prettyTime 1700000000000 (1700000000000 - 84570000)
                   = Number_toString n ++ lit "d ago").
Proof.
  split; [|split].
  - apply (proj1 (prettyTime_units 1700000000000 (1700000000000 - 3569999))).
    lia.
  - apply (proj1 (proj2 (prettyTime_units 1700000000000
                           (1700000000000 - 3570000)))).
    lia.
  - apply (proj2 (proj2 (prettyTime_units 1700000000000
                           (1700000000000 - 84570000)))).
    lia.
Defined.

(** X5: how far the label is from the elapsed time.  A label in minutes
    (past the first half minute) is within half a minute of it; a label in
    hours within 30.5 minutes; a label in days is between 12 hours 30.5
    minutes above and 11 hours 29.5 minutes below it. *)
Theorem prettyTime_accuracy now timestamp :
  (30000 <= now - timestamp < 3570000 ->
   exists n, prettyTime now timestamp = Number_toString n ++ lit "m ago"
             /\ 60000 * n - 30000 <= now - timestamp < 60000 * n + 30000)
  /\ (3570000 <= now - timestamp < 84570000 ->
      exists n, prettyTime now timestamp = Number_toString n ++ lit "h ago"
                /\ 3600000 * n - 1830000 <= now - timestamp
                   < 3600000 * n + 1830000)
  /\ (84570000 <= now - timestamp ->
      exists n, prettyTime now timestamp = Number_toString n ++ lit "d ago"
                /\ 86400000 * n - 45030000 <= now - timestamp
                   < 86400000 * n + 41370000).
Proof.
  rewrite prettyTime_int. cbv zeta.
  set (d := now - timestamp).
  set (q := (d + 30000) / 60000).
  assert (60000 * q <= d + 30000 < 60000 * q + 60000) as Hq.
  { unfold q. Z.div_mod_to_equations. lia. }
  set (m := Z.max 1 q).
  set (h := (m + 30) / 60).
  assert (60 * h <= m + 30 < 60 * h + 60) as Hh.
  { unfold h. Z.div_mod_to_equations. lia. }
  set (D := (h + 12) / 24).
  assert (24 * D <= h + 12 < 24 * D + 24) as HD.
  { unfold D. Z.div_mod_to_equations. lia. }
  split; [|split]; intros Hd.
  - destruct (Z.ltb_spec m 60); [|lia]. exists m. split; [reflexivity | lia].
  - destruct (Z.ltb_spec m 60); [lia|].
    destruct (Z.ltb_spec h 24); [|lia]. exists h. split; [reflexivity | lia].
  - destruct (Z.ltb_spec m 60); [lia|].
    destruct (Z.ltb_spec h 24); [lia|]. exists D. split; [reflexivity | lia].
Qed.

Lemma prettyTime_accuracy_witness :
  (exists n, prettyTime 1700000000000 (1700000000000 - 1234567)
             = Number_toString n ++ lit "m ago"
             /\ 60000 * n - 30000 <= 1700000000000 - (1700000000000 - 1234567)
                < 60000 * n + 30000)
  /\ (exists n, prettyTime 1700000000000 (1700000000000 - 5370000)
                = Number_toString n ++ lit "h ago"
                /\ 3600000 * n - 1830000
                   <= 1700000000000 - (1700000000000 - 5370000)
                   < 3600000 * n + 1830000)
  /\ (exists n, prettyTime 1700000000000 (1700000000000 - 127769999)
                = Number_toString n ++ lit "d ago"
                /\ 86400000 * n - 45030000
                   <= 1700000000000 - (1700000000000 - 127769999)
                   < 86400000 * n + 41370000).
Proof.
  split; [|split].
  - apply (proj1 (prettyTime_accuracy 1700000000000 (1700000000000 - 1234567))).
    lia.
  - apply (proj1 (proj2 (prettyTime_accuracy 1700000000000
                           (1700000000000 - 5370000)))).
    lia.
  - apply (proj2 (proj2 (prettyTime_accuracy 1700000000000
                           (1700000000000 - 127769999)))).
    lia.
Defined.

Lemma lit_injective a b : lit a = lit b -> a = b.
Proof.
  unfold lit. intros H.
  rewrite <- (string_of_list_ascii_of_string a),
          <- (string_of_list_ascii_of_string b).
  f_equal. revert H.
  generalize (list_ascii_of_string a) (list_ascii_of_string b).
  induction l as [|x l IH]; intros [|y l']; simpl; try discriminate.
  - reflexivity.
  - intros [= Hxy Hl]. f_equal; [|apply IH; assumption].
    rewrite <- (ascii_N_embedding x), <- (ascii_N_embedding y), Hxy.
    reflexivity.
Qed.

Lemma to_int_proper n :
  Z.to_int n <> Decimal.Pos Decimal.Nil /\ Z.to_int n <> Decimal.Neg Decimal.Nil.
Proof.
  destruct n as [|q|q]; simpl; split; try discriminate;
    intros [= H]; apply (Unsigned.to_uint_nonnil q H).
Qed.

Lemma Number_toString_injective n1 n2 :
  Number_toString n1 = Number_toString n2 -> n1 = n2.
Proof.
  unfold Number_toString. intros H. apply lit_injective in H.
  apply (f_equal NilZero.int_of_string) in H.
  destruct (to_int_proper n1), (to_int_proper n2).
  rewrite !NilZero.isi in H by assumption.
  injection H as H. apply DecimalZ.to_int_inj. assumption.
Qed.

(** A label is read back from its text: the number and the unit rendered
    are determined by the string. *)
Lemma render_injective l1 l2 : render l1 = render l2 -> l1 = l2.
Proof.
  destruct l1 as [n1 u1], l2 as [n2 u2]. unfold render. simpl fst. simpl snd.
  intros H. apply (f_equal (@rev _)) in H. rewrite !rev_app_distr in H.
  destruct u1, u2; simpl in H; injection H as H; try discriminate;
    apply (f_equal (@rev _)) in H; rewrite !rev_involutive in H;
    apply Number_toString_injective in H; subst; reflexivity.
Qed.

Lemma spec_relative_monotone e1 e2 :
  e1 <= e2 -> label_le (spec_relative e1) (spec_relative e2).
Proof.
  intros He. rewrite !spec_relative_int. cbv zeta. unfold label_le.
  set (q1 := (e1 + 30000) / 60000). set (q2 := (e2 + 30000) / 60000).
  assert (q1 <= q2) as Hq by (apply Z.div_le_mono; lia).
  set (m1 := Z.max 1 q1). set (m2 := Z.max 1 q2).
  assert (m1 <= m2) as Hm by lia.
  set (h1 := (m1 + 30) / 60). set (h2 := (m2 + 30) / 60).
  assert (h1 <= h2) as Hh by (apply Z.div_le_mono; lia).
  assert ((h1 + 12) / 24 <= (h2 + 12) / 24) as HD
      by (apply Z.div_le_mono; lia).
  destruct (Z.ltb_spec m1 60), (Z.ltb_spec m2 60);
    destruct (Z.ltb_spec h1 24), (Z.ltb_spec h2 24); simpl;
    try lia;
    try (right; split; [reflexivity | lia]);
    left; lia.
Qed.

(** X6: of two sightings the older one never gets the fresher label.  The
    texts of [prettyTime] for two timestamps are the renderings of two
    labels, the only ones that render to them, and the label of the later
    timestamp comes first in the order of labels (minutes before hours
    before days, then by number). *)
Theorem prettyTime_monotone now older newer :
  older <= newer ->
  exists l_old l_new,
    prettyTime now older = render l_old
    /\ prettyTime now newer = render l_new
    /\ (forall l, render l = prettyTime now older -> l = l_old)
    /\ (forall l, render l = prettyTime now newer -> l = l_new)
    /\ label_le l_new l_old.
Proof.
  intros H.
  exists (spec_relative (now - older)), (spec_relative (now - newer)).
  split; [apply prettyTime_refines|]. split; [apply prettyTime_refines|].
  split; [|split].
  - intros l E. apply render_injective. rewrite E. apply prettyTime_refines.
  - intros l E. apply render_injective. rewrite E. apply prettyTime_refines.
  - apply spec_relative_monotone. lia.
Qed.

Lemma prettyTime_monotone_witness :
  exists l_old l_new,
    prettyTime 1700000000000 1699990000000 = render l_old
    /\ prettyTime 1700000000000 1699999000000 = render l_new
    /\ (forall l, render l = prettyTime 1700000000000 1699990000000 ->
                  l = l_old)
    /\ (forall l, render l = prettyTime 1700000000000 1699999000000 ->
                  l = l_new)
    /\ label_le l_new l_old.
Proof.
  apply (prettyTime_monotone 1700000000000 1699990000000 1699999000000). lia.
Defined.

End PrettyTimeMore.

(** ** More on [distribution] and [topCount] *)

Section DistributionMore.

Variable localeCompare : jsstring -> jsstring -> Z.

Lemma get_set_same k v m : JsMap.get k (JsMap.set k v m) = Some v.
Proof.
  induction m as [|[k' v'] m IH]; simpl.
  - destruct (eqb_spec k k); [reflexivity | congruence].
  - destruct (eqb_spec k' k) as [->|Hk]; simpl.
    + destruct (eqb_spec k k); [reflexivity | congruence].
    + destruct (eqb_spec k' k); [congruence | assumption].
Qed.

Lemma get_set_other k k' v m :
  k' <> k -> JsMap.get k' (JsMap.set k v m) = JsMap.get k' m.
Proof.
  intros Hne. induction m as [|[k0 v0] m IH]; simpl.
  - destruct (eqb_spec k k'); [congruence | reflexivity].
  - destruct (eqb_spec k0 k) as [->|Hk]; simpl.
    + destruct (eqb_spec k k'); [congruence | reflexivity].
    + destruct (eqb_spec k0 k'); [reflexivity | assumption].
Qed.

Lemma get_bump k k' m :
  nullish (JsMap.get k' (bump k m)) 0
  = nullish (JsMap.get k' m) 0 + (if jsstring_eq_dec k k' then 1 else 0).
Proof.
  unfold bump. destruct (jsstring_eq_dec k k') as [->|Hne].
  - rewrite get_set_same. reflexivity.
  - rewrite get_set_other by congruence. lia.
Qed.

Lemma count_from_get l : forall m k,
  nullish (JsMap.get k (count_from m l)) 0
  = nullish (JsMap.get k m) 0 + occurrences k l.
Proof.
  unfold occurrences.
  induction l as [|s l IH]; intros m k.
  - simpl. lia.
  - unfold count_from in *. simpl fold_left. rewrite IH, get_bump.
    simpl. destruct (jsstring_eq_dec (Sighting.location s) k); lia.
Qed.

Lemma In_get k v m : NoDup (keys m) -> In (k, v) m -> JsMap.get k m = Some v.
Proof.
  induction m as [|[k' v'] m IH]; simpl; intros Hnd Hin; [contradiction|].
  inversion Hnd as [|? ? Hk Hnd']; subst.
  destruct Hin as [[= -> ->]|Hin].
  - destruct (eqb_spec k k); [reflexivity | congruence].
  - destruct (eqb_spec k' k) as [->|_]; [|apply IH; assumption].
    elim Hk. change k with (fst (k, v)). apply in_map. assumption.
Qed.

Lemma In_distribution item l :
  In item (distribution localeCompare l) <->
  In (Item.location item, Item.count item) (countLocations l).
Proof.
  split; intros H.
  - apply (Permutation_in _ (distribution_Permutation localeCompare l)) in H.
    apply in_map_iff in H. destruct H as ([k v] & <- & H). assumption.
  - eapply Permutation_in;
      [apply Permutation_sym, distribution_Permutation|].
    apply in_map_iff. exists (Item.location item, Item.count item).
    split; [destruct item; reflexivity | assumption].
Qed.

Lemma occurrences_positive loc l :
  In loc (List.map Sighting.location l) -> 1 <= occurrences loc l.
Proof.
  intros H. unfold occurrences.
  apply (count_occ_In jsstring_eq_dec) in H. lia.
Qed.

Lemma In_distribution_count l item :
  In item (distribution localeCompare l) ->
  Item.count item = occurrences (Item.location item) l
  /\ 1 <= Item.count item.
Proof.
  intros H.
  assert (In (Item.location item) (List.map Sighting.location l)) as Hloc.
  { apply (In_keys_countLocations localeCompare).
    apply In_distribution in H. unfold keys.
    apply in_map_iff. exists (Item.location item, Item.count item).
    split; [reflexivity | assumption]. }
  apply In_distribution in H.
  apply In_get in H; [|apply NoDup_keys_countLocations].
  pose proof (count_from_get l [] (Item.location item)) as E.
  rewrite <- countLocations_count_from, H in E. simpl in E.
  split; [assumption|]. rewrite E. apply occurrences_positive. assumption.
Qed.

(** X7: each entry of the distribution counts exactly the sightings at
    its location, and that is at least one. *)
Theorem distribution_exact_counts l item :
  In item (distribution localeCompare l) ->
  Item.count item = occurrences (Item.location item) l
  /\ 1 <= Item.count item.
Proof. apply In_distribution_count. Qed.

(** The count listed for a location, 0 when unlisted, is the number of
    sightings there. *)
Lemma tally_occurrences loc l :
  tally loc (distribution localeCompare l) = occurrences loc l.
Proof.
  unfold tally.
  destruct (find (fun it => JsString.eqb (Item.location it) loc)
              (distribution localeCompare l)) as [item|] eqn:F.
  - apply find_some in F. destruct F as [Hin Hloc].
    destruct (eqb_spec (Item.location item) loc) as [<-|]; [|discriminate].
    simpl. apply In_distribution_count. assumption.
  - simpl. unfold occurrences.
    rewrite (proj1 (count_occ_not_In jsstring_eq_dec _ loc)); [reflexivity|].
    intros Hin. apply (In_keys_countLocations localeCompare) in Hin.
    unfold keys in Hin. apply in_map_iff in Hin.
    destruct Hin as ([k v] & Hk & Hin). simpl in Hk. subst k.
    assert (In (Item.mk loc v) (distribution localeCompare l)) as Hd
        by (apply In_distribution; assumption).
    apply (find_none _ _ F) in Hd. simpl in Hd.
    destruct (eqb_spec loc loc); [discriminate | congruence].
Qed.

Lemma Sorted_weaken {A} (R R' : A -> A -> Prop) l :
  (forall a b, R a b -> R' a b) -> Sorted R l -> Sorted R' l.
Proof.
  intros HR. induction 1 as [|x l Hs IH Hh]; constructor; [assumption|].
  destruct Hh; constructor. auto.
Qed.

(** With a consistent comparison the counts never increase along the
    distribution. *)
Lemma distribution_counts_descending l :
  consistent localeCompare ->
  StronglySorted (fun a b => Item.count b <= Item.count a)
    (distribution localeCompare l).
Proof.
  intros Hc. apply Sorted_StronglySorted.
  - intros a b c Hab Hbc. lia.
  - apply (Sorted_weaken (fun a b => compareItems localeCompare a b <= 0)).
    + intros a b H. apply compareItems_ranked in H.
      destruct H as [H|[H _]]; lia.
    + apply sort_Sorted, compareItems_consistent, Hc.
Qed.

(** X8: [topCount] is the largest count of the distribution and is at
    least 1, also for an empty collection: every listed count lies between
    1 and [topCount], so the ratio [count / topCount] of a progress bar
    never divides by zero and never exceeds 1. *)
Theorem topCount_bounds l :
  consistent localeCompare ->
  1 <= topCount localeCompare l
  /\ (forall item, In item (distribution localeCompare l) ->
                   1 <= Item.count item <= topCount localeCompare l)
  /\ (l = [] -> topCount localeCompare l = 1).
Proof.
  intros Hc.
  pose proof (distribution_counts_descending l Hc) as Hs.
  pose proof (fun item => In_distribution_count l item) as Hcount.
  unfold topCount.
  destruct (distribution localeCompare l) as [|top rest] eqn:E; simpl.
  - split; [lia|]. split; [intros item []|reflexivity].
  - assert (1 <= Item.count top) as Htop by (apply Hcount; left; reflexivity).
    split; [assumption|]. split.
    + intros item Hin. split; [apply Hcount; assumption|].
      destruct Hin as [->|Hin]; [lia|].
      inversion Hs as [|? ? _ Hall]; subst.
      rewrite Forall_forall in Hall. apply Hall. assumption.
    + intros ->. discriminate E.
Qed.

End DistributionMore.

Lemma distribution_exact_counts_witness :
  Item.count (Item.mk (lit "Atrium") 2)
  = occurrences (Item.location (Item.mk (lit "Atrium") 2))
      [demoSighting "Atrium"; demoSighting "Patio"; demoSighting "Atrium"]
  /\ 1 <= Item.count (Item.mk (lit "Atrium") 2).
Proof.
  apply (distribution_exact_counts lexCompare
           [demoSighting "Atrium"; demoSighting "Patio"; demoSighting "Atrium"]
           (Item.mk (lit "Atrium") 2)).
  left. reflexivity.
Defined.

Lemma topCount_bounds_witness :
  1 <= topCount lexCompare
         [demoSighting "Patio"; demoSighting "Atrium"; demoSighting "Atrium"]
  /\ (forall item,
         In item (distribution lexCompare
                    [demoSighting "Patio"; demoSighting "Atrium";
                     demoSighting "Atrium"]) ->
         1 <= Item.count item
           <= topCount lexCompare
                [demoSighting "Patio"; demoSighting "Atrium";
                 demoSighting "Atrium"])
  /\ ([demoSighting "Patio"; demoSighting "Atrium"; demoSighting "Atrium"] = [] ->
      topCount lexCompare
        [demoSighting "Patio"; demoSighting "Atrium"; demoSighting "Atrium"]
      = 1).
Proof.
  apply (topCount_bounds lexCompare
           [demoSighting "Patio"; demoSighting "Atrium"; demoSighting "Atrium"]).
  exact lexCompare_consistent.
Defined.

(** ** More on [handleSubmit] and the page as a whole *)

Lemma occurrences_cons loc s l :
  occurrences loc (s :: l)
  = occurrences loc l
    + (if JsString.eqb loc (Sighting.location s) then 1 else 0).
Proof.
  unfold occurrences. simpl.
  destruct (jsstring_eq_dec (Sighting.location s) loc) as [E|E],
           (eqb_spec loc (Sighting.location s)); try congruence; lia.
Qed.

(** X9: a successful submission raises the count listed for the location
    extracted from its description by one, leaves the count of every other
    location as it was, and raises [totalSightings] by one. *)
Theorem handleSubmit_tally {File} (localeCompare : jsstring -> jsstring -> Z)
    (p : Platform File) (st : State File) :
  succeeded (handleSubmit p st) ->
  (forall loc,
      tally loc (distribution localeCompare (sightings (handleSubmit p st)))
      = tally loc (distribution localeCompare (sightings st))
        + (if JsString.eqb loc (extractLocation (description st))
           then 1 else 0))
  /\ totalSightings (handleSubmit p st) = totalSightings st + 1.
Proof.
  intros H.
  destruct (handleSubmit_success_cases p st H) as (f & url & _ & _ & _ & E).
  rewrite E. unfold totalSightings. simpl sightings. split.
  - intros loc. rewrite !tally_occurrences, occurrences_cons. reflexivity.
  - simpl List.length. lia.
Qed.

Lemma handleSubmit_tally_witness :
  (forall loc,
      tally loc
        (distribution lexCompare
           (sightings (handleSubmit demoPlatform
                         (mkState (lit "moths @<Atrium>") (Some 0%nat)
                            [demoSighting "Atrium"; demoSighting "Patio"] None))))
      = tally loc
          (distribution lexCompare [demoSighting "Atrium"; demoSighting "Patio"])
        + (if JsString.eqb loc (extractLocation (lit "moths @<Atrium>"))
           then 1 else 0))
  /\ totalSightings
       (handleSubmit demoPlatform
          (mkState (lit "moths @<Atrium>") (Some 0%nat)
             [demoSighting "Atrium"; demoSighting "Patio"] None))
     = totalSightings
         (mkState (lit "moths @<Atrium>") (Some 0%nat)
            [demoSighting "Atrium"; demoSighting "Patio"] None) + 1.
Proof.
  apply (handleSubmit_tally lexCompare demoPlatform
           (mkState (lit "moths @<Atrium>") (Some 0%nat)
              [demoSighting "Atrium"; demoSighting "Patio"] None)).
  reflexivity.
Defined.

(** One event keeps the collection or puts one sighting in front of it,
    and only a submit can add. *)
Lemma step_sightings {File} (st : State File) (ev : Event File) :
  sightings (step st ev) = sightings st
  \/ exists p url,
       ev = Submit p
       /\ trim (description st) <> []
       /\ sightings (step st ev)
          = Sighting.mk (randomUUID p) (description st)
              (extractLocation (description st)) url (Date_now p)
            :: sightings st.
Proof.
  destruct ev as [value|files|p]; simpl; try (left; reflexivity).
  destruct (handleSubmit_cases File p st)
    as [[_ E]|[(_ & _ & E)|[(f & _ & _ & _ & E)|(f & url & Hd & _ & _ & E)]]];
    rewrite E; simpl; try (left; reflexivity).
  right. exists p, url. auto.
Qed.

Lemma step_well_tagged {File} (st : State File) (ev : Event File) :
  Forall well_tagged (sightings st) ->
  Forall well_tagged (sightings (step st ev)).
Proof.
  intros H. destruct (step_sightings st ev) as [->|(p & url & _ & Hd & ->)];
    [assumption|].
  constructor; [|assumption]. split; [reflexivity | assumption].
Qed.

Lemma run_well_tagged {File} (evs : list (Event File)) : forall st,
  Forall well_tagged (sightings st) ->
  Forall well_tagged (sightings (run st evs)).
Proof.
  induction evs as [|ev evs IH]; intros st H; [assumption|].
  apply (IH (step st ev)), step_well_tagged, H.
Qed.

(** X11: in every state the page reaches from its first render, whatever
    the user types, selects and submits and whatever the platform answers,
    each sighting of the collection has a description that is not blank
    and has as location what [extractLocation] gives for that description;
    the three initial sightings included. *)
Theorem reachable_well_tagged {File} (t1 t2 t3 : Z) (evs : list (Event File)) :
  Forall well_tagged (sightings (run (initialState t1 t2 t3) evs)).
Proof.
  apply run_well_tagged. unfold initialState, demoSightings. simpl sightings.
  repeat constructor; discriminate.
Qed.

(** X12: the collection only grows at its head.  After any sequence of
    events the collection is the former one with new sightings in front of
    it, at most one per submit; no former entry is removed, changed or
    moved. *)
Theorem run_append_only {File} (st : State File) (evs : list (Event File)) :
  exists added,
    sightings (run st evs) = added ++ sightings st
    /\ (List.length added
        <= List.length
             (filter (fun ev => match ev with Submit _ => true | _ => false end)
                evs))%nat.
Proof.
  revert st. induction evs as [|ev evs IH]; intros st.
  - exists []. split; [reflexivity | simpl; lia].
  - destruct (IH (step st ev)) as (added & E & Hlen).
    change (run st (ev :: evs)) with (run (step st ev) evs).
    destruct (step_sightings st ev) as [Es|(p & url & -> & _ & Es)].
    + exists added. rewrite E, Es. split; [reflexivity|].
      simpl. destruct ev; simpl; lia.
    + exists (added ++ [Sighting.mk (randomUUID p) (description st)
                          (extractLocation (description st)) url (Date_now p)]).
      rewrite E, Es, <- app_assoc. split; [reflexivity|].
      rewrite length_app. simpl. simpl in Hlen. lia.
Qed.

(** X13: identifiers stay distinct as long as [crypto.randomUUID] returns
    one that is not in use: if the identifiers of the collection are
    pairwise distinct and the one drawn for a submission is not among
    them, they are pairwise distinct after it. *)
Theorem handleSubmit_ids_distinct {File} (p : Platform File) (st : State File) :
  NoDup (List.map Sighting.id (sightings st)) ->
  ~ In (randomUUID p) (List.map Sighting.id (sightings st)) ->
  NoDup (List.map Sighting.id (sightings (handleSubmit p st))).
Proof.
  intros Hnd Hfresh.
  destruct (step_sightings st (Submit p)) as [E|(p0 & url & [= <-] & _ & E)];
    simpl in E; rewrite E; [assumption|].
  simpl. constructor; assumption.
Qed.

Lemma handleSubmit_ids_distinct_witness :
  NoDup (List.map Sighting.id
           (sightings (handleSubmit demoPlatform
                         (mkState (lit "moths @<Lab>") (Some 0%nat)
                            (demoSightings 0 0 0) None)))).
Proof.
  apply (handleSubmit_ids_distinct demoPlatform
           (mkState (lit "moths @<Lab>") (Some 0%nat) (demoSightings 0 0 0) None)).
  - simpl. repeat constructor; simpl; intuition discriminate.
  - simpl. intuition discriminate.
Defined.

(** X14: the only messages a submission leaves in [errors] are the three
    of the checks; the fallback text of the [catch] clause,
    "Could not upload file", is never shown, because [readFile] only ever
    rejects with an [Error] object. *)
Theorem handleSubmit_messages {File} (p : Platform File) (st : State File) :
  (errors (handleSubmit p st) = None
   \/ exists e, errors (handleSubmit p st) = Some (message e))
  /\ errors (handleSubmit p st) <> Some (lit "Could not upload file").
Proof.
  destruct (handleSubmit_cases File p st)
    as [[_ E]|[(_ & _ & E)|[(f & _ & _ & _ & E)|(f & url & _ & _ & _ & E)]]];
    rewrite E; simpl; (split; [|discriminate]).
  - right. exists MissingDescription. reflexivity.
  - right. exists MissingImage. reflexivity.
  - right. exists ImageReadError. reflexivity.
  - left. reflexivity.
Qed.

(** ** Submissions that overlap *)

(** The handler run to its end is its part before the [await] followed at
    once by its part after it. *)
Lemma handleSubmit_split {File} (p : Platform File) (st : State File) :
  handleSubmit p st =
  match submitClick st with
  | (st1, Some pd) => submitSettle p pd st1
  | (st1, None) => st1
  end.
Proof.
  unfold handleSubmit, submitClick, submitSettle. simpl.
  destruct (truthy (trim (description st))); simpl; [|reflexivity].
  destruct (file st); reflexivity.
Qed.

Lemma submitClick_cases {File} (st : State File) :
  (trim (description st) = []
   /\ submitClick st
      = (setErrors File (Some (message MissingDescription)) st, None))
  \/ (trim (description st) <> [] /\ file st = None
      /\ submitClick st
         = (setErrors File (Some (message MissingImage)) st, None))
  \/ (exists f, trim (description st) <> [] /\ file st = Some f
                /\ submitClick st
                   = (setErrors File None st,
                      Some (mkPending (description st) f))).
Proof.
  unfold submitClick. simpl.
  destruct (trim (description st)) as [|c d] eqn:Ht; simpl.
  - left. split; reflexivity.
  - right. destruct (file st) as [f|] eqn:Hf.
    + right. exists f. repeat split. discriminate.
    + left. repeat split. discriminate.
Qed.

Lemma submitSettle_resolved {File} (p : Platform File) (pd : Pending File)
    (st : State File) url :
  readFile (readAsDataURL p (pendingFile pd)) = resolve url ->
  submitSettle p pd st =
  mkState [] None
    (Sighting.mk (randomUUID p) (pendingDescription pd)
       (extractLocation (pendingDescription pd)) url (Date_now p)
     :: sightings st)
    (errors st).
Proof. intros H. unfold submitSettle. rewrite H. reflexivity. Qed.

Lemma submitSettle_rejected {File} (p : Platform File) (pd : Pending File)
    (st : State File) :
  unreadable p (pendingFile pd) ->
  submitSettle p pd st = setErrors File (Some (message ImageReadError)) st.
Proof.
  intros Hu. unfold submitSettle.
  destruct (readFile (readAsDataURL p (pendingFile pd))) as [url|e] eqn:E.
  - elim (Hu url). assumption.
  - rewrite (readFile_reject _ _ E). reflexivity.
Qed.

(** X10: the form is emptied only when the read settles.  For a filled
    form whose file can be read: a second click made after the first
    submission has settled is refused for its missing description and
    adds nothing; a second click made while the first read is pending
    passes the checks again, and when both reads have succeeded the
    sighting is in the collection twice. *)
Theorem submit_twice {File} (st : State File) (f : File)
    (p1 p2 : Platform File) (url1 url2 : jsstring) :
  trim (description st) <> [] ->
  file st = Some f ->
  readFile (readAsDataURL p1 f) = resolve url1 ->
  readFile (readAsDataURL p2 f) = resolve url2 ->
  (sightings (ui (session (mkPage st [])
                    [Clicked; ReadSettles 0 p1; Clicked]))
   = Sighting.mk (randomUUID p1) (description st)
       (extractLocation (description st)) url1 (Date_now p1)
     :: sightings st
   /\ fails_with (ui (session (mkPage st [])
                        [Clicked; ReadSettles 0 p1; Clicked]))
        MissingDescription
   /\ reads (session (mkPage st []) [Clicked; ReadSettles 0 p1; Clicked]) = [])
  /\ (sightings (ui (session (mkPage st [])
                       [Clicked; Clicked; ReadSettles 0 p1; ReadSettles 0 p2]))
      = Sighting.mk (randomUUID p2) (description st)
          (extractLocation (description st)) url2 (Date_now p2)
        :: Sighting.mk (randomUUID p1) (description st)
             (extractLocation (description st)) url1 (Date_now p1)
        :: sightings st
      /\ reads (session (mkPage st [])
                  [Clicked; Clicked; ReadSettles 0 p1; ReadSettles 0 p2]) = []).
Proof.
  intros Hd Hf H1 H2.
  assert (forall e,
             submitClick (setErrors File e st)
             = (setErrors File None st, Some (mkPending (description st) f)))
    as Hclick.
  { intros e. unfold submitClick. simpl.
    destruct (trim (description st)); [congruence|]. simpl.
    rewrite Hf. reflexivity. }
  assert (submitClick st
          = (setErrors File None st, Some (mkPending (description st) f)))
    as Hclick0.
  { unfold submitClick. simpl.
    destruct (trim (description st)); [congruence|]. simpl.
    rewrite Hf. reflexivity. }
  split.
  - unfold session. simpl. rewrite Hclick0. simpl.
    rewrite (submitSettle_resolved p1 _ _ url1) by exact H1.
    simpl. repeat split.
  - unfold session. simpl. rewrite Hclick0. simpl.
    rewrite (Hclick None). simpl.
    rewrite (submitSettle_resolved p1 _ _ url1) by exact H1. simpl.
    rewrite (submitSettle_resolved p2 _ _ url2) by exact H2. simpl.
    split; reflexivity.
Qed.

Lemma submit_twice_witness :
  (sightings (ui (session (mkPage (mkState (lit "moths @<Lab>") (Some 0%nat)
                                     [demoSighting "Atrium"] None) [])
                    [Clicked; ReadSettles 0 demoPlatform; Clicked]))
   = Sighting.mk (randomUUID demoPlatform) (lit "moths @<Lab>")
       (extractLocation (lit "moths @<Lab>"))
       (lit "data:image/png;base64,iVBORw0KGgo=") (Date_now demoPlatform)
     :: [demoSighting "Atrium"]
   /\ fails_with
        (ui (session (mkPage (mkState (lit "moths @<Lab>") (Some 0%nat)
                                [demoSighting "Atrium"] None) [])
               [Clicked; ReadSettles 0 demoPlatform; Clicked]))
        MissingDescription
   /\ reads (session (mkPage (mkState (lit "moths @<Lab>") (Some 0%nat)
                                [demoSighting "Atrium"] None) [])
               [Clicked; ReadSettles 0 demoPlatform; Clicked]) = [])
  /\ (sightings
        (ui (session (mkPage (mkState (lit "moths @<Lab>") (Some 0%nat)
                                [demoSighting "Atrium"] None) [])
               [Clicked; Clicked; ReadSettles 0 demoPlatform;
                ReadSettles 0 demoPlatform]))
      = Sighting.mk (randomUUID demoPlatform) (lit "moths @<Lab>")
          (extractLocation (lit "moths @<Lab>"))
          (lit "data:image/png;base64,iVBORw0KGgo=") (Date_now demoPlatform)
        :: Sighting.mk (randomUUID demoPlatform) (lit "moths @<Lab>")
             (extractLocation (lit "moths @<Lab>"))
             (lit "data:image/png;base64,iVBORw0KGgo=") (Date_now demoPlatform)
        :: [demoSighting "Atrium"]
      /\ reads (session (mkPage (mkState (lit "moths @<Lab>") (Some 0%nat)
                                   [demoSighting "Atrium"] None) [])
                  [Clicked; Clicked; ReadSettles 0 demoPlatform;
                   ReadSettles 0 demoPlatform]) = []).
Proof.
  apply (submit_twice
           (mkState (lit "moths @<Lab>") (Some 0%nat) [demoSighting "Atrium"] None)
           0%nat demoPlatform demoPlatform
           (lit "data:image/png;base64,iVBORw0KGgo=")
           (lit "data:image/png;base64,iVBORw0KGgo=")).
  - discriminate.
  - reflexivity.
  - reflexivity.
  - reflexivity.
Defined.

Lemma act_quiet_errors {File} (pg : Page File) (a : Action File) :
  quiet a -> errors (ui (act pg a)) = errors (ui pg).
Proof.
  destruct a as [value|files| |n p]; simpl; intros H;
    try reflexivity; try contradiction.
  destruct (nth_error (reads pg) n) as [pd|]; [|reflexivity]. simpl.
  destruct (H (pendingFile pd)) as [url E].
  rewrite (submitSettle_resolved p pd _ url E). reflexivity.
Qed.

(** X15: what writes the message on display.  Typing, selecting a file
    and reads that succeed never change [errors]; a click replaces it,
    whatever it was, by the outcome of its checks; and a pending read that
    fails writes "Could not read file" over whatever is displayed then,
    also when other submissions were made after its click. *)
Theorem errors_writers {File} (pg : Page File) :
  (forall acts, Forall quiet acts ->
                errors (ui (session pg acts)) = errors (ui pg))
  /\ (forall stale,
         errors (ui (act (mkPage (setErrors File stale (ui pg)) (reads pg))
                       Clicked))
         = errors (ui (act pg Clicked)))
  /\ (forall n p pd,
         nth_error (reads pg) n = Some pd ->
         unreadable p (pendingFile pd) ->
         fails_with (ui (act pg (ReadSettles n p))) ImageReadError).
Proof.
  split; [|split].
  - intros acts. revert pg.
    induction acts as [|a acts IH]; intros pg H; [reflexivity|].
    inversion H as [|? ? Ha Hacts]; subst.
    change (session pg (a :: acts)) with (session (act pg a) acts).
    rewrite (IH (act pg a) Hacts). apply act_quiet_errors. assumption.
  - intros stale. simpl.
    destruct (submitClick_cases (ui pg))
      as [[Hd E]|[(Hd & Hf & E)|(f & Hd & Hf & E)]];
      destruct (submitClick_cases (setErrors File stale (ui pg)))
        as [[Hd' E']|[(Hd' & Hf' & E')|(f' & Hd' & Hf' & E')]];
      simpl in Hd', E'; try simpl in Hf'; rewrite E, E';
      try reflexivity; try congruence.
  - intros n p pd Hn Hu. simpl. rewrite Hn. simpl.
    rewrite (submitSettle_rejected p pd _ Hu). reflexivity.
Qed.

Lemma errors_writers_witness :
  errors (ui (session
                (mkPage (mkState (lit "gnats") (Some 0%nat) []
                           (Some (message MissingImage)))
                   [mkPending (lit "moths @<Lab>") 0%nat])
                [Typed (lit "gnats @<Gym>"); ReadSettles 0 readyPlatform;
                 Selected None]))
  = Some (message MissingImage)
  /\ fails_with
       (ui (act (mkPage (mkState (lit "gnats") (Some 0%nat) [] None)
                   [mkPending (lit "old") 0%nat; mkPending (lit "moths") 2%nat])
              (ReadSettles 1 demoPlatform)))
       ImageReadError.
Proof.
  split.
  - apply (proj1 (errors_writers
                    (mkPage (mkState (lit "gnats") (Some 0%nat) []
                               (Some (message MissingImage)))
                       [mkPending (lit "moths @<Lab>") 0%nat]))
             [Typed (lit "gnats @<Gym>"); ReadSettles 0 readyPlatform;
              Selected None]).
    repeat constructor.
    intros f.
    exists (lit "data:image/png;base64,iVBORw0KGgo="). reflexivity.
  - apply (proj2 (proj2 (errors_writers
                           (mkPage (mkState (lit "gnats") (Some 0%nat) [] None)
                              [mkPending (lit "old") 0%nat;
                               mkPending (lit "moths") 2%nat])))
             1%nat demoPlatform (mkPending (lit "moths") 2%nat)).
    + reflexivity.
    + intros url. discriminate.
Defined.

(** ** The ranking and the order of the sightings *)

(** Two arrangements of the same elements, both sorted by an order in
    which no two different elements of theirs are each before the other,
    are the same list. *)
Lemma sorted_arrangement_unique {A} (R : A -> A -> Prop) :
  forall l1 l2 : list A,
    (forall a b, In a l1 -> In b l1 -> R a b -> R b a -> a = b) ->
    StronglySorted R l1 -> StronglySorted R l2 -> Permutation l1 l2 ->
    l1 = l2.
Proof.
  induction l1 as [|x l1 IH]; intros l2 Hanti H1 H2 P.
  - apply Permutation_nil in P. congruence.
  - destruct l2 as [|y l2].
    + apply Permutation_sym, Permutation_nil in P. discriminate.
    + inversion H1 as [|? ? H1' Hx]; inversion H2 as [|? ? H2' Hy]; subst.
      rewrite Forall_forall in Hx, Hy.
      assert (In x (y :: l2)) as Hxin
          by (apply (Permutation_in _ P); left; reflexivity).
      assert (In y (x :: l1)) as Hyin
          by (apply (Permutation_in _ (Permutation_sym P)); left; reflexivity).
      assert (x = y) as ->.
      { destruct Hxin as [->|Hxin]; [reflexivity|].
        destruct Hyin as [->|Hyin']; [reflexivity|].
        apply Hanti; [left; reflexivity | right; assumption
                     | apply Hx; assumption | apply Hy; assumption]. }
      f_equal. apply IH; try assumption.
      * intros a b Ha Hb. apply Hanti; right; assumption.
      * apply Permutation_cons_inv in P. assumption.
Qed.

Section OrderIndependence.

Variable localeCompare : jsstring -> jsstring -> Z.
Hypothesis Hc : consistent localeCompare.

Lemma compareItems_antisym a b :
  (localeCompare (Item.location a) (Item.location b) = 0 ->
   Item.location a = Item.location b) ->
  compareItems localeCompare a b <= 0 ->
  compareItems localeCompare b a <= 0 -> a = b.
Proof.
  unfold compareItems. destruct a as [la ca], b as [lb cb]. simpl.
  intros Hsep.
  destruct (Z.eqb_spec (cb - ca) 0), (Z.eqb_spec (ca - cb) 0); try lia.
  intros Hab Hba.
  pose proof (cmp_antisym localeCompare Hc la lb) as Hs.
  assert (localeCompare la lb = 0) as E.
  { destruct (Z.sgn_spec (localeCompare la lb)) as [[? ?]|[[? ?]|[? ?]]],
             (Z.sgn_spec (localeCompare lb la)) as [[? ?]|[[? ?]|[? ?]]];
      lia. }
  apply Hsep in E. f_equal; [assumption | lia].
Qed.

Lemma distribution_StronglySorted l :
  StronglySorted (fun a b => compareItems localeCompare a b <= 0)
    (distribution localeCompare l).
Proof.
  pose proof (compareItems_consistent localeCompare Hc) as Hci.
  apply Sorted_StronglySorted.
  - intros a b c. apply (cmp_trans _ Hci).
  - apply sort_Sorted. assumption.
Qed.

Lemma occurrences_Permutation loc l l' :
  Permutation l l' -> occurrences loc l = occurrences loc l'.
Proof.
  intros P. unfold occurrences. f_equal.
  apply Permutation_count_occ. apply Permutation_map. assumption.
Qed.

Lemma In_distribution_iff l item :
  In item (distribution localeCompare l) <->
  In (Item.location item) (List.map Sighting.location l)
  /\ Item.count item = occurrences (Item.location item) l.
Proof.
  split.
  - intros H. split; [|apply (In_distribution_count localeCompare l item H)].
    apply (In_keys_countLocations localeCompare).
    apply In_distribution in H. unfold keys.
    apply in_map_iff. exists (Item.location item, Item.count item).
    split; [reflexivity | assumption].
  - intros [Hloc Hcount].
    apply (In_keys_countLocations localeCompare) in Hloc.
    unfold keys in Hloc. apply in_map_iff in Hloc.
    destruct Hloc as ([k v] & Hk & Hin). simpl in Hk. subst k.
    assert (In (Item.mk (Item.location item) v) (distribution localeCompare l))
      as Hd by (apply In_distribution; assumption).
    destruct (In_distribution_count localeCompare l _ Hd) as [Hv _].
    simpl in Hv. destruct item as [loc c]. simpl in *. congruence.
Qed.

Lemma NoDup_distribution l : NoDup (distribution localeCompare l).
Proof.
  apply (NoDup_map_inv Item.location).
  pose proof (Permutation_map Item.location
                (distribution_Permutation localeCompare l)) as P.
  rewrite map_map in P. simpl in P.
  apply (Permutation_NoDup (Permutation_sym P)).
  apply NoDup_keys_countLocations.
Qed.

Lemma distribution_rearranged l l' :
  (forall a b,
      In a (List.map Sighting.location l) ->
      In b (List.map Sighting.location l) ->
      localeCompare a b = 0 -> a = b) ->
  Permutation l l' ->
  distribution localeCompare l = distribution localeCompare l'.
Proof.
  intros Hsep P.
  apply (sorted_arrangement_unique
           (fun a b => compareItems localeCompare a b <= 0)).
  - intros a b Ha Hb. apply compareItems_antisym.
    apply In_distribution_iff in Ha, Hb. apply Hsep; tauto.
  - apply distribution_StronglySorted.
  - apply distribution_StronglySorted.
  - apply NoDup_Permutation; try apply NoDup_distribution.
    intros item. rewrite !In_distribution_iff.
    rewrite (occurrences_Permutation _ _ _ P).
    split; intros [Hin Hcount]; (split; [|assumption]).
    + apply (Permutation_in _ (Permutation_map _ P)). assumption.
    + apply (Permutation_in _ (Permutation_map _ (Permutation_sym P))).
      assumption.
Qed.

End OrderIndependence.

(** X16: when [localeCompare] is consistent and no two different
    locations of the collection compare as equal, the distribution does
    not depend on the order of the sightings: a collection that holds the
    same sightings in another order has the same ranking. *)
Theorem distribution_order_independent
    (localeCompare : jsstring -> jsstring -> Z) (l l' : list Sighting.t) :
  consistent localeCompare ->
  (forall a b,
      In a (List.map Sighting.location l) ->
      In b (List.map Sighting.location l) ->
      localeCompare a b = 0 -> a = b) ->
  Permutation l l' ->
  distribution localeCompare l = distribution localeCompare l'.
Proof. intros Hc Hsep P. apply distribution_rearranged; assumption. Qed.

Lemma lexCompare_separates a b : lexCompare a b = 0 -> a = b.
Proof.
  revert b. induction a as [|x a IH]; intros [|y b]; simpl; try discriminate.
  - reflexivity.
  - destruct (N.compare_spec x y) as [->|_|_]; try discriminate.
    intros H. f_equal. apply IH. assumption.
Qed.

Lemma lexCompare_refl a : lexCompare a a = 0.
Proof.
  induction a as [|x a IH]; simpl; [reflexivity|].
  rewrite N.compare_refl. assumption.
Qed.

(** The collation [caseFirstCompare] is a consistent comparator. *)
Lemma caseFirstCompare_consistent : consistent caseFirstCompare.
Proof.
  pose proof lexCompare_consistent as [La Lt].
  assert (forall x y, lexCompare x y = 0 -> lexCompare y x = 0) as Lsym.
  { intros x y H. apply lexCompare_separates in H. subst.
    apply lexCompare_refl. }
  split; unfold caseFirstCompare.
  - intros a b.
    destruct (Z.eqb_spec (lexCompare (foldCase a) (foldCase b)) 0) as [E|E],
             (Z.eqb_spec (lexCompare (foldCase b) (foldCase a)) 0) as [E'|E'].
    + apply La.
    + elim E'. apply Lsym. assumption.
    + elim E. apply Lsym. assumption.
    + apply La.
  - intros a b c.
    destruct (Z.eqb_spec (lexCompare (foldCase a) (foldCase b)) 0) as [E1|E1],
             (Z.eqb_spec (lexCompare (foldCase b) (foldCase c)) 0) as [E2|E2].
    + apply lexCompare_separates in E1, E2. rewrite E1, E2, lexCompare_refl.
      simpl. intros H1 H2. apply (Lt c b a); assumption.
    + apply lexCompare_separates in E1. rewrite E1.
      destruct (Z.eqb_spec (lexCompare (foldCase b) (foldCase c)) 0);
        [contradiction | auto].
    + apply lexCompare_separates in E2. rewrite <- E2.
      destruct (Z.eqb_spec (lexCompare (foldCase a) (foldCase b)) 0);
        [contradiction | auto].
    + intros H1 H2.
      destruct (Z.eqb_spec (lexCompare (foldCase a) (foldCase c)) 0) as [E3|E3];
        [|apply (Lt _ (foldCase b)); assumption].
      exfalso. apply lexCompare_separates in E3. rewrite E3 in *.
      pose proof (La (foldCase b) (foldCase c)) as Hs.
      destruct (Z.sgn_spec (lexCompare (foldCase c) (foldCase b)))
        as [[? ?]|[[? ?]|[? ?]]],
               (Z.sgn_spec (lexCompare (foldCase b) (foldCase c)))
        as [[? ?]|[[? ?]|[? ?]]];
        lia.
Qed.

Lemma distribution_sorted_witness :
  (forall i a b,
      nth_error (distribution caseFirstCompare
                   [demoSighting "patio"; demoSighting "Atrium";
                    demoSighting "lawn"; demoSighting "Atrium"]) i = Some a ->
      nth_error (distribution caseFirstCompare
                   [demoSighting "patio"; demoSighting "Atrium";
                    demoSighting "lawn"; demoSighting "Atrium"]) (S i) = Some b ->
      ranked_before caseFirstCompare a b)
  /\ (forall l',
         List.map Sighting.location l'
         = List.map Sighting.location
             [demoSighting "patio"; demoSighting "Atrium";
              demoSighting "lawn"; demoSighting "Atrium"] ->
         distribution caseFirstCompare l'
         = distribution caseFirstCompare
             [demoSighting "patio"; demoSighting "Atrium";
              demoSighting "lawn"; demoSighting "Atrium"]).
Proof.
  apply (distribution_sorted caseFirstCompare
           [demoSighting "patio"; demoSighting "Atrium";
            demoSighting "lawn"; demoSighting "Atrium"]).
  exact caseFirstCompare_consistent.
Defined.

Lemma distribution_order_independent_witness :
  distribution caseFirstCompare
    [demoSighting "patio"; demoSighting "Atrium"; demoSighting "lawn"]
  = distribution caseFirstCompare
      [demoSighting "lawn"; demoSighting "patio"; demoSighting "Atrium"].
Proof.
  apply (distribution_order_independent caseFirstCompare
           [demoSighting "patio"; demoSighting "Atrium"; demoSighting "lawn"]
           [demoSighting "lawn"; demoSighting "patio"; demoSighting "Atrium"]).
  - exact caseFirstCompare_consistent.
  - intros a b Ha Hb.
    simpl in Ha, Hb.
    destruct Ha as [<-|[<-|[<-|[]]]], Hb as [<-|[<-|[<-|[]]]];
      intros H; try reflexivity; vm_compute in H; discriminate H.
  - apply Permutation_sym.
    eapply perm_trans; [apply perm_swap | apply perm_skip, perm_swap].
Defined.

(** ** The collection under overlapping submissions *)

Lemma In_without_nth {A} (x : A) n l :
  In x (firstn n l ++ skipn (S n) l) -> In x l.
Proof.
  intros H. apply in_app_or in H. destruct H as [H|H].
  - rewrite <- (firstn_skipn n l). apply in_or_app. left. assumption.
  - rewrite <- (firstn_skipn (S n) l). apply in_or_app. right. assumption.
Qed.

(** What every suspended submission holds: a description that passed the
    first check. *)
Lemma act_reads_checked {File} (pg : Page File) (a : Action File) :
  Forall (fun pd => trim (pendingDescription pd) <> []) (reads pg) ->
  Forall (fun pd => trim (pendingDescription pd) <> []) (reads (act pg a)).
Proof.
  intros H. destruct a as [value|files| |n p]; simpl; try assumption.
  - destruct (submitClick_cases (ui pg))
      as [[_ E]|[(_ & _ & E)|(f & Hd & _ & E)]]; rewrite E; simpl;
      try assumption.
    apply Forall_app. split; [assumption|]. repeat constructor. assumption.
  - destruct (nth_error (reads pg) n) as [pd|]; [|assumption]. simpl.
    rewrite Forall_forall in *. intros x Hx. apply H.
    apply (In_without_nth x n). assumption.
Qed.

(** One action keeps the collection, or a read that settles puts in front
    of it the sighting of a suspended submission. *)
Lemma act_sightings {File} (pg : Page File) (a : Action File) :
  sightings (ui (act pg a)) = sightings (ui pg)
  \/ exists n p pd url,
       a = ReadSettles n p /\ In pd (reads pg)
       /\ sightings (ui (act pg a))
          = Sighting.mk (randomUUID p) (pendingDescription pd)
              (extractLocation (pendingDescription pd)) url (Date_now p)
            :: sightings (ui pg).
Proof.
  destruct a as [value|files| |n p]; simpl; try (left; reflexivity).
  - left. destruct (submitClick_cases (ui pg))
      as [[_ E]|[(_ & _ & E)|(f & _ & _ & E)]]; rewrite E; reflexivity.
  - destruct (nth_error (reads pg) n) as [pd|] eqn:Hn; [|left; reflexivity].
    simpl. unfold submitSettle.
    destruct (readFile (readAsDataURL p (pendingFile pd))) as [url|e];
      [|left; reflexivity].
    right. exists n, p, pd, url. split; [reflexivity|].
    split; [eapply nth_error_In; eassumption | reflexivity].
Qed.

(** X17: the collection under any interleaving.  Starting from the first
    render, whatever the user does and in whatever order the pending reads
    settle, also while other submissions are suspended, every sighting of
    the collection has a description that is not blank and the location
    [extractLocation] gives for it, and the collection is the initial one
    with new sightings in front of it, at most one for each read that
    settled. *)
Theorem session_collection {File} (t1 t2 t3 : Z) (acts : list (Action File)) :
  Forall well_tagged (sightings (ui (session (initialPage t1 t2 t3) acts)))
  /\ exists added,
       sightings (ui (session (initialPage t1 t2 t3) acts))
       = added ++ demoSightings t1 t2 t3
       /\ (List.length added <= List.length (filter isReadSettles acts))%nat.
Proof.
  assert (forall (pg : Page File),
             Forall well_tagged (sightings (ui pg)) ->
             Forall (fun pd => trim (pendingDescription pd) <> []) (reads pg) ->
             Forall well_tagged (sightings (ui (session pg acts)))
             /\ exists added,
                  sightings (ui (session pg acts)) = added ++ sightings (ui pg)
                  /\ (List.length added
                      <= List.length (filter isReadSettles acts))%nat)
    as Hgen.
  { induction acts as [|a acts IH]; intros pg Hw Hr.
    - split; [assumption|]. exists []. split; [reflexivity | simpl; lia].
    - change (session pg (a :: acts)) with (session (act pg a) acts).
      pose proof (act_reads_checked pg a Hr) as Hr'.
      destruct (act_sightings pg a) as [E|(n & p & pd & url & -> & Hin & E)].
      + destruct (IH (act pg a)) as (Hw' & added & Es & Hlen);
          [rewrite E; assumption | assumption |].
        split; [assumption|]. exists added. rewrite Es, E.
        split; [reflexivity|]. simpl. destruct (isReadSettles a); simpl; lia.
      + destruct (IH (act pg (ReadSettles n p))) as (Hw' & added & Es & Hlen).
        * rewrite E. constructor; [|assumption].
          split; [reflexivity|]. simpl.
          rewrite Forall_forall in Hr. apply Hr. assumption.
        * assumption.
        * split; [assumption|].
          exists (added ++ [Sighting.mk (randomUUID p) (pendingDescription pd)
                              (extractLocation (pendingDescription pd)) url
                              (Date_now p)]).
          rewrite Es, E, <- app_assoc. split; [reflexivity|].
          rewrite length_app. simpl. lia. }
  apply (Hgen (initialPage t1 t2 t3)).
  - unfold initialPage, initialState, demoSightings. simpl.
    repeat constructor; discriminate.
  - constructor.
Qed.

(** X18: what is typed or selected while a read is pending is lost when
    the read succeeds.  For a filled form whose file can be read, a click
    followed by any typing and any file selection and then by the read
    settling leaves the description empty and no file selected, and the
    sighting stored carries the description as it was at the click. *)
Theorem settle_discards_edits {File} (st : State File) (f : File)
    (p : Platform File) (url value : jsstring) (files : option (list File)) :
  trim (description st) <> [] ->
  file st = Some f ->
  readFile (readAsDataURL p f) = resolve url ->
  description (ui (session (mkPage st [])
                     [Clicked; Typed value; Selected files; ReadSettles 0 p]))
  = []
  /\ file (ui (session (mkPage st [])
                 [Clicked; Typed value; Selected files; ReadSettles 0 p]))
     = None
  /\ sightings (ui (session (mkPage st [])
                      [Clicked; Typed value; Selected files; ReadSettles 0 p]))
     = Sighting.mk (randomUUID p) (description st)
         (extractLocation (description st)) url (Date_now p)
       :: sightings st.
Proof.
  intros Hd Hf Hr.
  destruct (submitClick_cases st)
    as [[Hd' _]|[(_ & Hf' & _)|(f' & _ & Hf' & E)]]; try congruence.
  assert (f' = f) as -> by congruence.
  unfold session. simpl. rewrite E. simpl.
  rewrite (submitSettle_resolved p _ _ url) by exact Hr.
  repeat split.
Qed.

Lemma settle_discards_edits_witness :
  description
    (ui (session (mkPage (mkState (lit "moths @<Lab>") (Some 0%nat) [] None) [])
           [Clicked; Typed (lit "gnats @<Gym>"); Selected (Some [2%nat]);
            ReadSettles 0 demoPlatform]))
  = []
  /\ file
       (ui (session (mkPage (mkState (lit "moths @<Lab>") (Some 0%nat) [] None) [])
              [Clicked; Typed (lit "gnats @<Gym>"); Selected (Some [2%nat]);
               ReadSettles 0 demoPlatform]))
     = None
  /\ sightings
       (ui (session (mkPage (mkState (lit "moths @<Lab>") (Some 0%nat) [] None) [])
              [Clicked; Typed (lit "gnats @<Gym>"); Selected (Some [2%nat]);
               ReadSettles 0 demoPlatform]))
     = Sighting.mk (randomUUID demoPlatform) (lit "moths @<Lab>")
         (extractLocation (lit "moths @<Lab>"))
         (lit "data:image/png;base64,iVBORw0KGgo=") (Date_now demoPlatform)
       :: [].
Proof.
  apply (settle_discards_edits
           (mkState (lit "moths @<Lab>") (Some 0%nat) [] None) 0%nat
           demoPlatform (lit "data:image/png;base64,iVBORw0KGgo=")
           (lit "gnats @<Gym>") (Some [2%nat])).
  - discriminate.
  - reflexivity.
  - reflexivity.
Defined.
